(** * pymerkle: nodes of the Merkle-tree and audit proofs

    Part one ([Module Nodes]) embeds [pymerkle/tree/nodes.py]: the classes
    [__Node], [Leaf] and [Node] become operations on an explicit object
    store, because the code links objects in both directions (an internal
    node points to its two operands through [left] and [right], every
    operand points back through [child]) and compares them by identity.

    Part two ([Module Tree]) holds the tree, the audit-proof generator and
    the verifier that [tests/validations/test_validations.py] exercises.
    Their code lies outside nodes.py; they are modelled from the
    specification, on top of the leaf constructor of part one.

    [Module NodesExtra] adds what else nodes.py holds that can be
    embedded: a consistency condition on the links and the printing
    method [__str__].  [__repr__] prints memory addresses and the two
    serializers are imported from elsewhere; they are left out. *)

From Stdlib Require Import ZArith Lia Strings.Byte String.
From stdpp Require Import base list option strings.

Module Nodes.

(** ** Values *)

(** Python [bytes]. *)
Definition bytes := list byte.

#[global] Instance byte_eq_decision : EqDecision byte := byte_eq_dec.

(** A record, a digest or any other argument that is either [str] or
    [bytes]. *)
Inductive pyarg :=
| PyStr (s : string)
| PyBytes (b : bytes).

#[global] Instance pyarg_eq_decision : EqDecision pyarg.
Proof. solve_decision. Defined.

(** Truth value of a [str] or [bytes] object: empty means false. *)
Definition truthy (a : pyarg) : bool :=
  match a with
  | PyStr s => negb (String.eqb s EmptyString)
  | PyBytes b => match b with [] => false | _ :: _ => true end
  end.

(** Truth value of an optional argument whose default is [None]. *)
Definition truthy_opt (a : option pyarg) : bool :=
  match a with
  | None => false
  | Some v => truthy v
  end.

Definition is_None {A} (a : option A) : bool :=
  match a with
  | None => true
  | Some _ => false
  end.

(** Exceptions: the six imported from [pymerkle.exceptions] and the
    built-in ones the embedded code can meet. *)
Inductive exn :=
| NoChildException
| NoDescendantException
| NoParentException
| LeafConstructionError
| UndecodableArgumentError
| UndecodableRecord
| AttributeError
| TypeError
| UnicodeEncodeError
| LookupError.

#[global] Instance exn_eq_decision : EqDecision exn.
Proof. solve_decision. Defined.

(** Computations that either raise or return. *)
Definition result (A : Type) : Type := exn + A.

Definition raise {A} (e : exn) : result A := inl e.
Definition ret {A} (a : A) : result A := inr a.

Definition bind {A B} (m : result A) (k : A -> result B) : result B :=
  match m with
  | inl e => inl e
  | inr a => k a
  end.

Notation "'let!' x ':=' m 'in' k" := (bind m (fun x => k))
  (at level 10, x pattern, m at level 100, k at level 200, only parsing).

(** ** Object store *)

(** Objects are known by their identity. *)
Definition handle := nat.

(** [Leaf] objects have the slots [__encoding], [__child] and [__digest];
    [Node] objects have [__left] and [__right] in addition. *)
Inductive shape :=
| IsLeaf
| IsNode (l r : handle).

Record object := Object {
  obj_shape : shape;
  obj_encoding : string;
  obj_digest : bytes;
  obj_child : option handle   (* [None]: the slot [__child] is not set *)
}.

Definition heap := list object.

Definition with_child (c : handle) (o : object) : object :=
  Object (obj_shape o) (obj_encoding o) (obj_digest o) (Some c).

Definition with_digest (d : bytes) (o : object) : object :=
  Object (obj_shape o) (obj_encoding o) d (obj_child o).

Definition with_left (l : handle) (o : object) : object :=
  match obj_shape o with
  | IsLeaf => o
  | IsNode _ r => Object (IsNode l r) (obj_encoding o) (obj_digest o) (obj_child o)
  end.

Definition with_right (r : handle) (o : object) : object :=
  match obj_shape o with
  | IsLeaf => o
  | IsNode l _ => Object (IsNode l r) (obj_encoding o) (obj_digest o) (obj_child o)
  end.

(** In-place update of the object a handle stands for. *)
Definition update (h : heap) (n : handle) (f : object -> object) : heap :=
  match h !! n with
  | Some o => <[n := f o]> h
  | None => h
  end.

(** ** class __Node *)

(** Property [encoding]. *)
Definition encoding (h : heap) (self : handle) : result string :=
  match h !! self with
  | Some o => ret (obj_encoding o)
  | None => raise AttributeError
  end.

(** Property [child]: [NoChildException] when the slot is not set. *)
Definition child (h : heap) (self : handle) : result handle :=
  match h !! self with
  | Some o =>
      match obj_child o with
      | Some c => ret c
      | None => raise NoChildException
      end
  | None => raise NoChildException
  end.

Definition set_child (h : heap) (self c : handle) : heap :=
  update h self (with_child c).

(** Property [left]: [NoParentException] when there is no such slot. *)
Definition left (h : heap) (self : handle) : result handle :=
  match h !! self with
  | Some o =>
      match obj_shape o with
      | IsNode l _ => ret l
      | IsLeaf => raise NoParentException
      end
  | None => raise NoParentException
  end.

(** Property [right]. *)
Definition right (h : heap) (self : handle) : result handle :=
  match h !! self with
  | Some o =>
      match obj_shape o with
      | IsNode _ r => ret r
      | IsLeaf => raise NoParentException
      end
  | None => raise NoParentException
  end.

(** Property [digest] of both subclasses. *)
Definition digest (h : heap) (self : handle) : result bytes :=
  match h !! self with
  | Some o => ret (obj_digest o)
  | None => raise AttributeError
  end.

(** [self == other] is identity: no class overrides [__eq__]. *)
Definition same (a b : handle) : bool := Nat.eqb a b.

Definition is_left_parent (h : heap) (self : handle) : result bool :=
  match child h self with
  | inl NoChildException => ret false
  | inl e => raise e
  | inr _child => let! l := left h _child in ret (same self l)
  end.

Definition is_right_parent (h : heap) (self : handle) : result bool :=
  match child h self with
  | inl NoChildException => ret false
  | inl e => raise e
  | inr _child => let! r := right h _child in ret (same self r)
  end.

Definition is_parent (h : heap) (self : handle) : result bool :=
  match child h self with
  | inl NoChildException => ret false
  | inl e => raise e
  | inr _ => ret true
  end.

(** [descendant] calls itself on the child with [degree - 1] until
    [degree == 0]; nothing bounds the number of calls when [degree] is
    negative or the [child] links form a cycle, so the embedding counts
    calls: [None] means that [fuel] calls did not reach a result. *)
Fixpoint descendant (fuel : nat) (h : heap) (self : handle) (degree : Z)
  : option (result handle) :=
  match fuel with
  | O => None
  | S fuel' =>
      if (degree =? 0)%Z then Some (ret self)
      else
        match child h self with
        | inl NoChildException => Some (raise NoDescendantException)
        | inl e => Some (raise e)
        | inr _child => descendant fuel' h _child (degree - 1)
        end
  end.

(** ** Constructors and methods that use the hash function *)

Section WithHash.

(** The [hash_func] handed to the constructors, called with one or two
    arguments, and Python's [bytes(s, encoding)]. *)
Variable hash_func : pyarg -> option pyarg -> result bytes.
Variable str_encode : string -> string -> result bytes.

(** [bytes(x, encoding)]: only a [str] can be given with an encoding. *)
Definition py_bytes (x : pyarg) (enc : string) : result bytes :=
  match x with
  | PyStr s => str_encode enc s
  | PyBytes _ => raise TypeError
  end.

(** The object a fresh allocation gets is one no handle stood for. *)
Definition alloc (h : heap) (o : object) : handle * heap :=
  (length h, h ++ [o]).

(** [Leaf.__init__], first half: the branch taken and the digest it is
    about to store, or the exception it raises. *)
Definition Leaf_init_digest (enc : string) (record dig : option pyarg)
  : result bytes :=
  if is_None dig && truthy_opt record then
    match record with
    | Some r =>
        match hash_func r None with
        | inl UndecodableArgumentError => raise UndecodableRecord
        | inl e => raise e
        | inr d => ret d
        end
    | None => raise LeafConstructionError
    end
  else if is_None record && truthy_opt dig then
    match dig with
    | Some x => py_bytes x enc
    | None => raise LeafConstructionError
    end
  else raise LeafConstructionError.

(** [Leaf.__init__]: in both branches that do not raise, the encoding and
    the digest are stored and [__child] is left unset. *)
Definition Leaf_init (h : heap) (enc : string)
    (record dig : option pyarg) : result (handle * heap) :=
  let! d := Leaf_init_digest enc record dig in
  ret (alloc h (Object IsLeaf enc d None)).

(** [Node.__init__] *)
Definition Node_init (h : heap) (enc : string) (l r : handle)
  : result (handle * heap) :=
  let! dl := digest h l in
  let! dr := digest h r in
  match hash_func (PyBytes dl) (Some (PyBytes dr)) with
  | inl UndecodableArgumentError => raise UndecodableRecord
  | inl e => raise e
  | inr d =>
      let '(self, h1) := alloc h (Object (IsNode l r) enc d None) in
      let h2 := set_child h1 l self in
      let h3 := set_child h2 r self in
      ret (self, h3)
  end.

(** [Node.set_left], [Node.set_right]: methods of [Node] only. *)
Definition set_left (h : heap) (self l : handle) : result heap :=
  match h !! self with
  | Some o =>
      match obj_shape o with
      | IsNode _ _ => ret (update h self (with_left l))
      | IsLeaf => raise AttributeError
      end
  | None => raise AttributeError
  end.

Definition set_right (h : heap) (self r : handle) : result heap :=
  match h !! self with
  | Some o =>
      match obj_shape o with
      | IsNode _ _ => ret (update h self (with_right r))
      | IsLeaf => raise AttributeError
      end
  | None => raise AttributeError
  end.

(** [Node.recalculate_hash]: whatever [hash_func] raises is passed on. *)
Definition recalculate_hash (h : heap) (self : handle) : result heap :=
  match h !! self with
  | Some o =>
      match obj_shape o with
      | IsNode _ _ =>
          let! l := left h self in
          let! dl := digest h l in
          let! r := right h self in
          let! dr := digest h r in
          let! _new_digest := hash_func (PyBytes dl) (Some (PyBytes dr)) in
          ret (update h self (with_digest _new_digest))
      | IsLeaf => raise AttributeError
      end
  | None => raise AttributeError
  end.

(** The equation between the digest an internal node stores and the
    digests its two operands store at present. *)
Definition digest_equation (h : heap) (n : handle) : bool :=
  match left h n, right h n with
  | inr l, inr r =>
      match digest h l, digest h r, digest h n with
      | inr dl, inr dr, inr d =>
          bool_decide (hash_func (PyBytes dl) (Some (PyBytes dr)) = inr d)
      | _, _, _ => false
      end
  | _, _ => false
  end.

(** Everything in the module that writes to the store: the two
    constructors and the four mutating methods.  A call that raises has
    written nothing. *)
Inductive op :=
| NewLeaf (enc : string) (record dig : option pyarg)
| NewNode (enc : string) (l r : handle)
| SetChild (n c : handle)
| SetLeft (n l : handle)
| SetRight (n r : handle)
| RecalculateHash (n : handle).

Definition exec (h : heap) (o : op) : heap :=
  match o with
  | NewLeaf enc record dig =>
      match Leaf_init h enc record dig with
      | inr (_, h') => h'
      | inl _ => h
      end
  | NewNode enc l r =>
      match Node_init h enc l r with
      | inr (_, h') => h'
      | inl _ => h
      end
  | SetChild n c => set_child h n c
  | SetLeft n l =>
      match set_left h n l with
      | inr h' => h'
      | inl _ => h
      end
  | SetRight n r =>
      match set_right h n r with
      | inr h' => h'
      | inl _ => h
      end
  | RecalculateHash n =>
      match recalculate_hash h n with
      | inr h' => h'
      | inl _ => h
      end
  end.

Definition exec_all (h : heap) (os : list op) : heap :=
  fold_left exec os h.

End WithHash.

(** Instances of [Leaf], as opposed to instances of [Node]. *)
Definition leafy (o : object) : bool :=
  match obj_shape o with
  | IsLeaf => true
  | IsNode _ _ => false
  end.

Definition is_leaf (h : heap) (n : handle) : bool :=
  match h !! n with
  | Some o => leafy o
  | None => false
  end.

(** One step along the [child] link, when there is one. *)
Definition child_step (h : heap) (n : handle) : option handle :=
  match child h n with
  | inr c => Some c
  | inl _ => None
  end.

(** The node [k] steps up the [child] links from [n]: the node [k - 1]
    steps up, and from there one step more. *)
Fixpoint follow (h : heap) (n : handle) (k : nat) : option handle :=
  match k with
  | O => Some n
  | S k' =>
      match follow h n k' with
      | Some m => child_step h m
      | None => None
      end
  end.

(** The chain of [child] links that starts at [n] comes to an end. *)
Definition chain_ends (h : heap) (n : handle) : Prop :=
  exists k, follow h n k = None.

End Nodes.

Module Tree.

Import Nodes.

(** ** Hash engine *)

(** Modelled from the spec: the catalogue of hash functions; the module
    [pymerkle.hashing] that holds [HASH_TYPES] is missing. *)
Inductive hash_type :=
| sha224 | sha256 | sha384 | sha512
| sha3_224 | sha3_256 | sha3_384 | sha3_512.

(** Modelled from the spec: the parameters fixed at tree construction
    (the class [MerkleTree] is missing).  [cfg_raw_bytes] is carried along
    as the spec lists it; the hash engine of section 4.1 does not read
    it. *)
Record config := Config {
  cfg_hash_type : hash_type;
  cfg_encoding : string;
  cfg_raw_bytes : bool;
  cfg_security : bool
}.

Section WithAlgorithms.

(** The hash implementations behind the catalogue and the text codecs
    (encoding name, then text), both external to the library. *)
Variable algorithm : hash_type -> bytes -> bytes.
Variable str_encode : string -> string -> result bytes.

(** Modelled from the spec: the prefixes of the missing hash engine,
    empty in insecure mode, the tag 0x00 for a single input and the tag
    0x01 before each of two inputs otherwise. *)
Definition prefix_single (cfg : config) : bytes :=
  if cfg_security cfg then [x00] else [].

Definition prefix_pair (cfg : config) : bytes :=
  if cfg_security cfg then [x01] else [].

(** Modelled from the spec: the missing engine encodes text inputs with
    the configured encoding before hashing; an input that cannot be
    encoded fails. *)
Definition to_bytes (cfg : config) (a : pyarg) : result bytes :=
  match a with
  | PyBytes b => ret b
  | PyStr s =>
      match str_encode (cfg_encoding cfg) s with
      | inr b => ret b
      | inl _ => raise UndecodableArgumentError
      end
  end.

(** Modelled from the spec: the operation [digest(a, b?)] of the missing
    hash engine, [H(prefix_single || a)] for one input and
    [H(prefix_left || a || prefix_right || b)] for two. *)
Definition hash (cfg : config) (a : pyarg) (b : option pyarg)
  : result bytes :=
  let! a' := to_bytes cfg a in
  match b with
  | None => ret (algorithm (cfg_hash_type cfg) (prefix_single cfg ++ a'))
  | Some b =>
      let! b' := to_bytes cfg b in
      ret (algorithm (cfg_hash_type cfg)
             (prefix_pair cfg ++ a' ++ prefix_pair cfg ++ b'))
  end.

(** Modelled from the spec: the two-input operation of the missing hash
    engine on two digests, which are bytes already and need no encoding. *)
Definition hash_pair (cfg : config) (a b : bytes) : bytes :=
  algorithm (cfg_hash_type cfg)
    (prefix_pair cfg ++ a ++ prefix_pair cfg ++ b).

(** ** Tree state *)

(** Modelled from the spec: the node graph as the tagged variant of
    section 9, a leaf with its digest or an internal node with its digest
    and its two operands.  The [child] back-link is not stored: the
    position of a leaf is found from the leaf counts on the way down. *)
Inductive node :=
| Leaf (d : bytes)
| Internal (d : bytes) (l r : node).

(** Modelled from the spec: the digest a node of the missing tree
    holds. *)
Definition node_digest (n : node) : bytes :=
  match n with
  | Leaf d => d
  | Internal d _ _ => d
  end.

(** Modelled from the spec: the digests of the leaves below a node of
    the missing tree, from left to right, and their number. *)
Fixpoint leaf_digests (n : node) : list bytes :=
  match n with
  | Leaf d => [d]
  | Internal _ l r => leaf_digests l ++ leaf_digests r
  end.

Definition leaf_count (n : node) : nat := List.length (leaf_digests n).

(** Modelled from the spec: the height of a sub-root of the missing
    tree, the quantity step 4 of Append compares. *)
Fixpoint height (n : node) : nat :=
  match n with
  | Leaf _ => 0
  | Internal _ l _ => S (height l)
  end.

(** Modelled from the spec: creation of an internal node from two existing
    nodes, its digest [H(left.digest, right.digest)] (data model, section
    3; [Node.__init__] of nodes.py on the functional nodes). *)
Definition join (cfg : config) (l r : node) : node :=
  Internal (hash_pair cfg (node_digest l) (node_digest r)) l r.

(** Modelled from the spec: invariant I1 on the functional nodes, every
    internal node stores the hash of the digests of its two operands. *)
Fixpoint digests_ok (cfg : config) (n : node) : Prop :=
  match n with
  | Leaf _ => True
  | Internal d l r =>
      d = hash_pair cfg (node_digest l) (node_digest r) /\
      digests_ok cfg l /\ digests_ok cfg r
  end.

(** Modelled from the spec: the state of the missing class [MerkleTree],
    its configuration and the ordered list of principal sub-roots, from
    left to right.  The overall root is recomputed from the list. *)
Record MerkleTree := Build_tree {
  tree_config : config;
  subroots : list node
}.

(** Modelled from the spec: the missing class [MerkleTree] before any
    record is appended. *)
Definition empty_tree (cfg : config) : MerkleTree := Build_tree cfg [].

(** Modelled from the spec: step 4 of Append in section 4.3, the upward
    merge.  [t] is the rightmost principal sub-root and [rs] the ones to
    its left, nearest first; while [t] and its neighbour have equal
    height they are replaced by the node that joins them. *)
Fixpoint merge_up (cfg : config) (t : node) (rs : list node) : list node :=
  match rs with
  | s :: rs' =>
      if Nat.eqb (height s) (height t) then merge_up cfg (join cfg s t) rs'
      else t :: rs
  | [] => [t]
  end.

(** Modelled from the spec: Append of section 4.3 in the missing class
    [MerkleTree], for a leaf that has been constructed.  On the empty
    list the leaf becomes the sole principal sub-root (step 2); otherwise
    it is put to the right of the rightmost one and the upward merge runs
    (steps 3 and 4).  The node that step 3 creates over the rightmost
    sub-root and the leaf is the first merge when their heights agree and
    the innermost node of the fold of step 5 when they do not. *)
Definition append_leaf (T : MerkleTree) (d : bytes) : MerkleTree :=
  Build_tree (tree_config T)
    (rev (merge_up (tree_config T) (Leaf d) (rev (subroots T)))).

(** Modelled from the spec: [update(record)] of the missing class
    [MerkleTree].  Step 1 constructs the leaf from the record with
    [Leaf.__init__] of nodes.py and the tree's hash engine; when that
    raises, so does [update], and there is no new state. *)
Definition update (T : MerkleTree) (record : pyarg) : result MerkleTree :=
  let! d := Leaf_init_digest (hash (tree_config T)) str_encode
              (cfg_encoding (tree_config T)) (Some record) None in
  ret (append_leaf T d).

(** Modelled from the spec: construction of the missing class
    [MerkleTree] with an initial list of records to append (section 6). *)
Fixpoint update_all (T : MerkleTree) (records : list pyarg)
  : result MerkleTree :=
  match records with
  | [] => ret T
  | r :: rs => let! T' := update T r in update_all T' rs
  end.

(** Modelled from the spec: the constructor of the missing class
    [MerkleTree] applied to a configuration and the initial records. *)
Definition build (cfg : config) (records : list pyarg) : result MerkleTree :=
  update_all (empty_tree cfg) records.

(** Modelled from the spec: the leaves of the missing class
    [MerkleTree], from left to right. *)
Definition leaves (T : MerkleTree) : list bytes :=
  concat (map leaf_digests (subroots T)).

(** Modelled from the spec: [length] of the missing class [MerkleTree],
    the number of appended records. *)
Definition length (T : MerkleTree) : nat := List.length (leaves T).

(** Modelled from the spec: the right-folded hash of the principal
    sub-roots of the missing tree (sections 3 and 4.3 step 5): the two
    rightmost are combined first.  There is none for the empty list. *)
Fixpoint fold_subroots (cfg : config) (ts : list node) : option bytes :=
  match ts with
  | [] => None
  | t :: ts' =>
      match fold_subroots cfg ts' with
      | None => Some (node_digest t)
      | Some f => Some (hash_pair cfg (node_digest t) f)
      end
  end.

(** Modelled from the spec: [rootHash], the digest of the current root;
    what it is on the empty tree is an open question of section 9 and is
    left absent here. *)
Definition rootHash (T : MerkleTree) : option bytes :=
  fold_subroots (tree_config T) (subroots T).

(** ** Proofs *)

(** Modelled from the spec: the sign of a path element of the missing
    class [Proof], [+1] when the sibling is to the right of the
    accumulator and [-1] when it is to the left. *)
Inductive sign :=
| Plus
| Minus.

(** Modelled from the spec: the proof object of section 4.5 (class
    [Proof] is missing), without the provenance fields [uuid],
    [timestamp], [creation_moment] and [provider]. *)
Record Proof := Build_proof {
  generation_status : bool;
  proof_config : config;
  proof_index : Z;
  proof_path : list (sign * bytes)
}.

(** Modelled from the spec: the sentinel of section 4.4, a proof with an
    empty path; the missing generator returns it instead of raising.  The
    spec does not fix its [proof_index]; the verifier rejects an empty
    path whatever the index. *)
Definition sentinel (cfg : config) : Proof :=
  Build_proof false cfg (-1) [].

(** Modelled from the spec: the audit path of the missing generator
    inside one principal sub-root.  Read from the end of the recursion, it is the walk upward
    from leaf [i]: the sibling is the right operand with sign [+1] when
    the current node is the left one, the left operand with sign [-1]
    otherwise. *)
Fixpoint path_in (n : node) (i : nat) : list (sign * bytes) :=
  match n with
  | Leaf _ => []
  | Internal _ l r =>
      if Nat.ltb i (leaf_count l)
      then path_in l i ++ [(Plus, node_digest r)]
      else path_in r (i - leaf_count l) ++ [(Minus, node_digest l)]
  end.

(** Modelled from the spec: the digest of leaf [i] below a node of the
    missing tree, the starting digest of the proof. *)
Definition leaf_in (n : node) (i : nat) : option bytes :=
  leaf_digests n !! i.

(** Modelled from the spec: the audit path of section 4.4 over the list
    of principal sub-roots of the missing tree.  The walk inside the sub-root that holds leaf
    [i] is followed by the fold sequence: the fold of the sub-roots to the
    right, then the sub-roots to the left, nearest first.  The result is
    the starting digest and the path; there is none when [i] is out of
    range. *)
Fixpoint audit_path (cfg : config) (ts : list node) (i : nat)
  : option (bytes * list (sign * bytes)) :=
  match ts with
  | [] => None
  | t :: ts' =>
      if Nat.ltb i (leaf_count t) then
        match leaf_in t i with
        | Some d =>
            Some (d, path_in t i ++
                     match fold_subroots cfg ts' with
                     | Some f => [(Plus, f)]
                     | None => []
                     end)
        | None => None
        end
      else
        match audit_path cfg ts' (i - leaf_count t) with
        | Some (d, p) => Some (d, p ++ [(Minus, node_digest t)])
        | None => None
        end
  end.

(** Modelled from the spec: the search of the missing generator for the
    leftmost leaf whose digest is [d]. *)
Fixpoint find_digest (d : bytes) (ds : list bytes) : option nat :=
  match ds with
  | [] => None
  | x :: ds' =>
      if bool_decide (x = d) then Some 0
      else option_map S (find_digest d ds')
  end.

(** Modelled from the spec: the argument of the missing [auditProof], an
    integer index or a record. *)
Inductive audit_arg :=
| ByIndex (i : Z)
| ByRecord (r : pyarg).

(** Modelled from the spec: resolution of the argument of the missing
    [auditProof] to a leaf position: an index stands for itself unless it
    is negative, a record for the leftmost leaf whose digest matches.  A
    record the engine cannot hash matches no leaf. *)
Definition resolve (T : MerkleTree) (arg : audit_arg) : option nat :=
  match arg with
  | ByIndex i => if (i <? 0)%Z then None else Some (Z.to_nat i)
  | ByRecord r =>
      match hash (tree_config T) r None with
      | inr d => find_digest d (leaves T)
      | inl _ => None
      end
  end.

(** Modelled from the spec: [auditProof] of the missing class
    [MerkleTree].  The path of a generated proof starts with the digest
    of the target leaf at [proof_index] 0; a negative or out of range
    index and a record that is not found give the sentinel. *)
Definition auditProof (T : MerkleTree) (arg : audit_arg) : Proof :=
  match resolve T arg with
  | Some i =>
      match audit_path (tree_config T) (subroots T) i with
      | Some (d, p) => Build_proof true (tree_config T) 0 ((Plus, d) :: p)
      | None => sentinel (tree_config T)
      end
  | None => sentinel (tree_config T)
  end.

(** ** Verifier *)

(** Modelled from the spec: step 4 of [validateProof] in section 4.6,
    one element of the path folded into the accumulator. *)
Definition replay_step (cfg : config) (acc : bytes) (e : sign * bytes)
  : bytes :=
  match e with
  | (Plus, sibling) => hash_pair cfg acc sibling
  | (Minus, sibling) => hash_pair cfg sibling acc
  end.

(** Modelled from the spec: the loop of step 4 of the missing
    [validateProof] over the elements after the starting one, in order. *)
Definition replay (cfg : config) (acc : bytes) (p : list (sign * bytes))
  : bytes :=
  fold_left (replay_step cfg) p acc.

(** Modelled from the spec: [validateProof(target, proof)] of the missing
    module [pymerkle.validations], steps 1 to 5 of section 4.6.  The hash
    engine is the one of the proof's configuration.  An index past the
    end of the path gives false, as the verifier never raises. *)
Definition validateProof (target : bytes) (p : Proof) : bool :=
  match proof_path p with
  | [] => false
  | _ :: _ =>
      if (proof_index p <? 0)%Z then false
      else
        match proof_path p !! Z.to_nat (proof_index p) with
        | None => false
        | Some (_, start) =>
            bool_decide
              (replay (proof_config p) start
                 (drop (S (Z.to_nat (proof_index p))) (proof_path p))
               = target)
        end
  end.

End WithAlgorithms.

End Tree.

(** * Concrete instances *)

Module Examples.

Import Nodes.
Import Tree.

(** A stand-in for the hash implementations: the input itself, so that a
    digest shows what was hashed. *)
Definition plain_algorithm (_ : hash_type) (b : bytes) : bytes := b.

(** The ascii codec, whatever the name asked for: code points of 128 and
    more cannot be encoded. *)
Definition ascii_codec (_ : string) (s : string) : result bytes :=
  if forallb (fun b => N.ltb (Byte.to_N b) 128) (list_byte_of_string s)
  then inr (list_byte_of_string s)
  else inl UnicodeEncodeError.

(** sha256, utf-8, security on: the configuration of the scenarios. *)
Definition cfg : config := Config sha256 "utf-8" false true.

Definition hash_func : pyarg -> option pyarg -> result bytes :=
  hash plain_algorithm ascii_codec cfg.

(** The text whose only code point is 233. *)
Definition e_acute : string := String (Ascii.ascii_of_nat 233) EmptyString.

(** Three leaves, made from the records "a", "b" and "c". *)
Definition three_leaves : heap :=
  exec_all hash_func ascii_codec []
    [NewLeaf "utf-8" (Some (PyStr "a")) None;
     NewLeaf "utf-8" (Some (PyStr "b")) None;
     NewLeaf "utf-8" (Some (PyStr "c")) None].

(** The same with node 3 on top of leaves 0 and 1. *)
Definition small_tree : heap :=
  exec hash_func ascii_codec three_leaves (NewNode "utf-8" 0 1).

(** Node 3 after its left link was re-pointed to leaf 2. *)
Definition repointed_left : heap :=
  exec hash_func ascii_codec small_tree (SetLeft 3 2).

(** Node 3 after its right link was re-pointed to leaf 2. *)
Definition repointed_right : heap :=
  exec hash_func ascii_codec small_tree (SetRight 3 2).

(** Node 3 made its own left operand, and its digest recalculated. *)
Definition self_linked : heap :=
  exec_all hash_func ascii_codec small_tree [SetLeft 3 3; RecalculateHash 3].

Definition abc : list pyarg := [PyStr "a"; PyStr "b"; PyStr "c"].

(** The tree of the records "a", "b", "c". *)
Definition tree_abc : MerkleTree :=
  match build plain_algorithm ascii_codec cfg abc with
  | inr T => T
  | inl _ => empty_tree cfg
  end.

End Examples.


(** * More of nodes.py: link consistency and printing *)

Module NodesExtra.

Import Nodes.

(** ** Consistency of the links *)

(** A property that returned the handle [a]. *)
Definition returns_handle (r : result handle) (a : handle) : bool :=
  match r with
  | inr x => Nat.eqb x a
  | inl _ => false
  end.

(** The child of [n], if any, has [n] as its left or right operand. *)
Definition child_answered (h : heap) (n : handle) : bool :=
  match child h n with
  | inr c => returns_handle (left h c) n || returns_handle (right h c) n
  | inl _ => true
  end.

(** The operands of [p], if any, have [p] as their child. *)
Definition operands_answer (h : heap) (p : handle) : bool :=
  match left h p, right h p with
  | inr l, inr r => returns_handle (child h l) p && returns_handle (child h r) p
  | _, _ => true
  end.

(** Every link of the store is answered by the link in the other
    direction. *)
Definition mutual (h : heap) : bool :=
  forallb (fun n => child_answered h n && operands_answer h n)
    (seq 0 (List.length h)).

(** The number of nodes below and including [n], following [left] and
    [right]; [None] when [fuel] levels do not reach the leaves. *)
Fixpoint count_nodes (fuel : nat) (h : heap) (n : handle) : option nat :=
  match fuel with
  | O => None
  | S fuel' =>
      match left h n, right h n with
      | inr l, inr r =>
          match count_nodes fuel' h l, count_nodes fuel' h r with
          | Some a, Some b => Some (S (a + b))
          | _, _ => None
          end
      | _, _ => if is_leaf h n then Some 1 else None
      end
  end.

(** ** __Node.__str__ *)

(** Text is held in UTF-8: the four prefixes of the module. *)
Definition L_BRACKET_SHORT : string := "└─".
Definition L_BRACKET_LONG : string := "└──".
Definition T_BRACKET : string := "├──".
Definition VERTICAL_BAR : string := "│".

Definition newline : string := String (Ascii.ascii_of_nat 10) EmptyString.

(** [k * s] on a [str]: nothing when [k] is not positive. *)
Definition str_mul (k : Z) (s : string) : string :=
  fold_right String.append EmptyString (repeat s (Z.to_nat k)).

(** [range(a, b)] *)
Definition py_range (a b : Z) : list Z :=
  map (fun k => (a + Z.of_nat k)%Z) (seq 0 (Z.to_nat (b - a))).

(** [x in l] on a list of integers. *)
Definition py_in (x : Z) (l : list Z) : bool := existsb (Z.eqb x) l.

(** The body of the loop over [range(1, level)]: a vertical bar unless the
    level is to be ignored, then the indentation. *)
Definition bar_step (indent : Z) (ignore : list Z) (output : string) (i : Z)
  : string :=
  ((output ++ (if negb (py_in i ignore) then " " ++ VERTICAL_BAR
               else str_mul 2 " "))
   ++ str_mul indent " ")%string.

(** Number of line ends in a text. *)
Fixpoint count_nl (s : string) : nat :=
  match s with
  | EmptyString => 0
  | String c s' =>
      (if Ascii.eqb c (Ascii.ascii_of_nat 10) then 1 else 0) + count_nl s'
  end.

Section WithDecode.

(** [bytes.decode(encoding)] (encoding name first), with the exceptions
    of the codec. *)
Variable E : Type.
Variable bytes_decode : string -> bytes -> E + string.

(** The method raises what the properties of the node raise or what the
    codec raises. *)
Definition outcome (A : Type) : Type := (exn + E) + A.

(** [encoding if encoding else self.encoding] *)
Definition effective_encoding (h : heap) (self : handle)
    (enc : option string) : result string :=
  match enc with
  | Some e => if String.eqb e EmptyString then encoding h self else ret e
  | None => encoding h self
  end.

(** [__Node.__str__(self, encoding, level, indent, ignore)].  The method
    calls itself on the left and on the right operand; [None] means that
    [fuel] nested calls did not reach the leaves. *)
Fixpoint __str__ (fuel : nat) (h : heap) (self : handle)
    (enc : option string) (level indent : Z) (ignore : list Z)
  : option (outcome string) :=
  match fuel with
  | O => None
  | S fuel' =>
      let head : result string :=
        if (level =? 0)%Z then
          match is_left_parent h self with
          | inl e => inl e
          | inr true => inr newline
          | inr false =>
              match is_right_parent h self with
              | inl e => inl e
              | inr true => inr newline
              | inr false => inr (newline ++ " " ++ L_BRACKET_SHORT)%string
              end
          end
        else inr (str_mul (indent + 1) " ") in
      match head with
      | inl e => Some (inl (inl e))
      | inr output =>
      let output := fold_left (bar_step indent ignore) (py_range 1 level) output in
      match is_left_parent h self with
      | inl e => Some (inl (inl e))
      | inr lp =>
      let output := if lp then (output ++ " " ++ T_BRACKET)%string else output in
      match is_right_parent h self with
      | inl e => Some (inl (inl e))
      | inr rp =>
      let output := if rp then (output ++ " " ++ L_BRACKET_LONG)%string else output in
      let new_ignore := if rp then ignore ++ [level] else ignore in
      match effective_encoding h self enc with
      | inl e => Some (inl (inl e))
      | inr encoding =>
      match digest h self with
      | inl e => Some (inl (inl e))
      | inr d =>
      match bytes_decode encoding d with
      | inl e => Some (inl (inr e))
      | inr text =>
      let output := (output ++ (text ++ newline))%string in
      if is_leaf h self then Some (inr output)
      else
        match left h self with
        | inl e => Some (inl (inl e))
        | inr l =>
        match __str__ fuel' h l (Some encoding) (level + 1) indent new_ignore with
        | None => None
        | Some (inl e) => Some (inl e)
        | Some (inr sl) =>
        match right h self with
        | inl e => Some (inl (inl e))
        | inr r =>
        match __str__ fuel' h r (Some encoding) (level + 1) indent new_ignore with
        | None => None
        | Some (inl e) => Some (inl e)
        | Some (inr sr) => Some (inr ((output ++ sl) ++ sr)%string)
        end end end end
      end end end end end end
  end.

End WithDecode.

End NodesExtra.


(** * More concrete instances *)

Module ExtraExamples.

Import Nodes.
Import NodesExtra.





(** A node over leaf 0 taken twice. *)
Definition twin : heap :=
  exec Examples.hash_func Examples.ascii_codec Examples.three_leaves
    (NewNode "utf-8" 0 0).

(** [repointed_left] after the digest of node 3 was recalculated. *)
Definition recalculated : heap :=
  exec Examples.hash_func Examples.ascii_codec Examples.repointed_left
    (RecalculateHash 3).

(** Leaf 0 of [three_leaves] made its own child. *)
Definition looped : heap := set_child Examples.three_leaves 0 0.

(** Errors of the ascii codec when decoding. *)
Inductive codec_error :=
| UnicodeDecodeError.

(** The ascii codec, decoding. *)
Definition ascii_decode (_ : string) (b : bytes) : codec_error + string :=
  if forallb (fun c => N.ltb (Byte.to_N c) 128) b
  then inr (string_of_list_byte b)
  else inl UnicodeDecodeError.

(** A store whose digests are letters: leaves 0, 1, 2, node 3 over 0 and
    1, node 4 over 3 and 2. *)
Definition lettered : heap :=
  [Object IsLeaf "ascii" [x61] (Some 3);
   Object IsLeaf "ascii" [x62] (Some 3);
   Object IsLeaf "ascii" [x63] (Some 4);
   Object (IsNode 0 1) "ascii" [x64] (Some 4);
   Object (IsNode 3 2) "ascii" [x65] None].

End ExtraExamples.


(** * Properties of nodes.py *)

Module NodesTheory.

Import Nodes.

(** ** The object store *)

Lemma update_length (h : heap) n f : List.length (update h n f) = List.length h.
Proof.
  unfold update. destruct (h !! n); [apply length_insert | reflexivity].
Qed.

Lemma update_lookup_eq (h : heap) n f o :
  h !! n = Some o -> update h n f !! n = Some (f o).
Proof.
  intros Hn. unfold update. rewrite Hn.
  apply list_lookup_insert_eq. eapply lookup_lt_Some, Hn.
Qed.

Lemma update_lookup_ne (h : heap) n m f :
  n <> m -> update h n f !! m = h !! m.
Proof.
  intros Hne. unfold update. destruct (h !! n); [|reflexivity].
  apply list_lookup_insert_ne, Hne.
Qed.

Lemma update_lookup (h : heap) n m f :
  update h n f !! m = if decide (n = m) then f <$> (h !! m) else h !! m.
Proof.
  destruct (decide (n = m)) as [->|Hne].
  - destruct (h !! m) as [o|] eqn:Hm.
    + simpl. apply update_lookup_eq, Hm.
    + unfold update. rewrite Hm. simpl. exact Hm.
  - apply update_lookup_ne, Hne.
Qed.

Lemma alloc_lookup_new (h : heap) o : (h ++ [o]) !! List.length h = Some o.
Proof.
  rewrite lookup_app_r by lia. replace (List.length h - List.length h) with 0 by lia.
  reflexivity.
Qed.

Lemma digest_allocated h n d : digest h n = inr d -> n < List.length h.
Proof.
  unfold digest. destruct (h !! n) eqn:Hn; [|discriminate].
  intros _. eapply lookup_lt_Some, Hn.
Qed.

(** ** Properties read through an update *)

Lemma digest_set_child h n c m : digest (set_child h n c) m = digest h m.
Proof.
  unfold digest, set_child. rewrite update_lookup.
  destruct (decide (n = m)); [|reflexivity].
  destruct (h !! m); reflexivity.
Qed.

Lemma left_set_child h n c m : left (set_child h n c) m = left h m.
Proof.
  unfold left, set_child. rewrite update_lookup.
  destruct (decide (n = m)); [|reflexivity].
  destruct (h !! m); reflexivity.
Qed.

Lemma right_set_child h n c m : right (set_child h n c) m = right h m.
Proof.
  unfold right, set_child. rewrite update_lookup.
  destruct (decide (n = m)); [|reflexivity].
  destruct (h !! m); reflexivity.
Qed.

Lemma child_set_child_eq h n c :
  n < List.length h -> child (set_child h n c) n = inr c.
Proof.
  intros Hn. destruct (lookup_lt_is_Some_2 h n Hn) as [o Ho].
  unfold child, set_child. rewrite (update_lookup_eq _ _ _ _ Ho). reflexivity.
Qed.

Lemma child_set_child_ne h n c m :
  n <> m -> child (set_child h n c) m = child h m.
Proof.
  intros Hne. unfold child, set_child. rewrite update_lookup_ne by exact Hne.
  reflexivity.
Qed.

Lemma set_child_length h n c : List.length (set_child h n c) = List.length h.
Proof. apply update_length. Qed.

(** The only exception [child] raises is [NoChildException]. *)
Lemma child_raises h n e : child h n = inl e -> e = NoChildException.
Proof.
  unfold child, raise, ret.
  destruct (h !! n) as [o|]; [destruct (obj_child o)|]; congruence.
Qed.

(** ** is_left_parent and is_right_parent *)

(** C8. [is_left_parent] returns true exactly when the node has a child
    whose [left] is the node, [is_right_parent] exactly when it has a child
    whose [right] is the node; and either the node has no child, in which
    case both return false (they do not raise), or it has one. *)
Theorem is_parent_of_child (h : heap) (n : handle) :
  (is_left_parent h n = inr true <->
     exists c, child h n = inr c /\ left h c = inr n) /\
  (is_right_parent h n = inr true <->
     exists c, child h n = inr c /\ right h c = inr n) /\
  ((child h n = inl NoChildException /\
      is_left_parent h n = inr false /\ is_right_parent h n = inr false) \/
   (exists c, child h n = inr c)).
Proof.
  unfold is_left_parent, is_right_parent.
  destruct (child h n) as [e|c] eqn:Hc.
  - apply child_raises in Hc as ->. repeat split.
    + discriminate.
    + intros (c & Hc & _). discriminate.
    + discriminate.
    + intros (c & Hc & _). discriminate.
    + left. repeat split.
  - repeat split.
    + intros H. exists c. split; [reflexivity|].
      destruct (left h c) as [e|l]; simpl in H; [discriminate|].
      unfold ret, same in H. injection H as H.
      apply Nat.eqb_eq in H. congruence.
    + intros (c' & [= <-] & Hl). rewrite Hl. simpl.
      unfold ret, same. rewrite Nat.eqb_refl. reflexivity.
    + intros H. exists c. split; [reflexivity|].
      destruct (right h c) as [e|r]; simpl in H; [discriminate|].
      unfold ret, same in H. injection H as H.
      apply Nat.eqb_eq in H. congruence.
    + intros (c' & [= <-] & Hr). rewrite Hr. simpl.
      unfold ret, same. rewrite Nat.eqb_refl. reflexivity.
    + right. exists c. reflexivity.
Qed.

(** When the child is a leaf, which has no [left] and no [right], the
    exception of the property comes out of both methods. *)
Lemma is_parent_child_leaf h n c :
  child h n = inr c -> is_leaf h c = true ->
  is_left_parent h n = inl NoParentException /\
  is_right_parent h n = inl NoParentException.
Proof.
  intros Hc Hleaf. unfold is_left_parent, is_right_parent. rewrite Hc.
  unfold is_leaf, leafy in Hleaf. unfold left, right.
  destruct (h !! c) as [o|]; [|discriminate].
  destruct (obj_shape o); [split; reflexivity|discriminate].
Qed.

(** ** descendant *)

(** Following the links from [n] for [k + 1] steps is one step from [n]
    and then [k] steps from there. *)
Lemma follow_first h n k :
  follow h n (S k) =
  match child_step h n with
  | Some c => follow h c k
  | None => None
  end.
Proof.
  induction k as [|k IH].
  - simpl. destruct (child_step h n); reflexivity.
  - change (follow h n (S (S k))) with
      (match follow h n (S k) with Some m => child_step h m | None => None end).
    rewrite IH. destruct (child_step h n); reflexivity.
Qed.

Lemma descendant_nat h : forall (k : nat) n fuel,
  k < fuel ->
  descendant fuel h n (Z.of_nat k) =
  Some (match follow h n k with
        | Some m => inr m
        | None => inl NoDescendantException
        end).
Proof.
  induction k as [|k IH]; intros n fuel Hfuel.
  - destruct fuel as [|fuel]; [lia|]. reflexivity.
  - destruct fuel as [|fuel]; [lia|].
    rewrite follow_first. cbn [descendant].
    replace (Z.of_nat (S k) =? 0)%Z with false by (symmetry; apply Z.eqb_neq; lia).
    replace (Z.of_nat (S k) - 1)%Z with (Z.of_nat k) by lia.
    unfold child_step. destruct (child h n) as [e|c] eqn:Hc.
    + apply child_raises in Hc as ->. reflexivity.
    + apply IH. lia.
Qed.

(** C5. For a degree [k >= 0], [descendant] returns, within [k + 1]
    calls, the node reached from [n] by following the [child] link [k]
    times, and raises [NoDescendantException] exactly when the chain ends
    before that; for degree 0 it returns [n] itself. *)
Theorem descendant_follows_child (h : heap) (n : handle) (k : Z) (fuel : nat) :
  (0 <= k)%Z ->
  Z.to_nat k < fuel ->
  descendant fuel h n k =
    Some (match follow h n (Z.to_nat k) with
          | Some m => inr m
          | None => inl NoDescendantException
          end) /\
  (forall m, descendant fuel h n k = Some (inr m) <->
             follow h n (Z.to_nat k) = Some m) /\
  (descendant fuel h n k = Some (inl NoDescendantException) <->
   follow h n (Z.to_nat k) = None) /\
  descendant fuel h n 0 = Some (inr n).
Proof.
  intros Hk Hfuel.
  assert (Heq : descendant fuel h n k =
    Some (match follow h n (Z.to_nat k) with
          | Some m => inr m
          | None => inl NoDescendantException
          end)).
  { rewrite <- (Z2Nat.id k) at 1 by exact Hk. apply descendant_nat, Hfuel. }
  split; [exact Heq|]. rewrite Heq. repeat split.
  - destruct (follow h n (Z.to_nat k)); congruence.
  - intros ->. reflexivity.
  - destruct (follow h n (Z.to_nat k)); congruence.
  - intros ->. reflexivity.
  - destruct fuel; [lia|]. reflexivity.
Qed.

(** With a negative degree the calls go on until the chain ends. *)
Lemma descendant_negative_steps h : forall (j : nat) n (k : Z) fuel,
  (k < 0)%Z ->
  follow h n j = None ->
  j <= fuel ->
  descendant fuel h n k = Some (inl NoDescendantException).
Proof.
  induction j as [|j IH]; intros n k fuel Hk Hj Hfuel.
  - discriminate.
  - destruct fuel as [|fuel]; [lia|].
    rewrite follow_first in Hj. cbn [descendant].
    replace (k =? 0)%Z with false by (symmetry; apply Z.eqb_neq; lia).
    unfold child_step in Hj. destruct (child h n) as [e|c] eqn:Hc.
    + apply child_raises in Hc as ->. reflexivity.
    + apply IH; [lia|exact Hj|lia].
Qed.

(** C10. When the chain of [child] links from [n] ends, [descendant]
    reaches a result for every integer degree once it is given enough
    calls, and for a negative degree that result is
    [NoDescendantException], never a node. *)
Theorem descendant_total (h : heap) (n : handle) (k : Z) :
  chain_ends h n ->
  (exists fuel0 r, forall fuel, fuel0 <= fuel ->
     descendant fuel h n k = Some r) /\
  ((k < 0)%Z ->
   exists fuel0, forall fuel, fuel0 <= fuel ->
     descendant fuel h n k = Some (inl NoDescendantException)).
Proof.
  intros [j Hj].
  assert (Hneg : (k < 0)%Z ->
    forall fuel, j <= fuel ->
      descendant fuel h n k = Some (inl NoDescendantException)).
  { intros Hk fuel Hfuel. eapply descendant_negative_steps; eassumption. }
  split.
  - destruct (Z_lt_le_dec k 0) as [Hk|Hk].
    + exists j, (inl NoDescendantException). auto.
    + exists (S (Z.to_nat k)). eexists. intros fuel Hfuel.
      rewrite <- (Z2Nat.id k) at 1 by exact Hk. apply descendant_nat. lia.
  - intros Hk. exists j. auto.
Qed.


(** ** Reading the store after an allocation *)

Lemma digest_alloc h o n d : digest h n = inr d -> digest (h ++ [o]) n = inr d.
Proof.
  unfold digest. destruct (h !! n) as [x|] eqn:Hn; [|discriminate].
  rewrite (lookup_app_l_Some _ _ _ _ Hn). trivial.
Qed.

Lemma left_alloc h o n l : left h n = inr l -> left (h ++ [o]) n = inr l.
Proof.
  unfold left. destruct (h !! n) as [x|] eqn:Hn; [|discriminate].
  rewrite (lookup_app_l_Some _ _ _ _ Hn). trivial.
Qed.

Lemma right_alloc h o n r : right h n = inr r -> right (h ++ [o]) n = inr r.
Proof.
  unfold right. destruct (h !! n) as [x|] eqn:Hn; [|discriminate].
  rewrite (lookup_app_l_Some _ _ _ _ Hn). trivial.
Qed.

Lemma is_leaf_alloc h o n : is_leaf h n = true -> is_leaf (h ++ [o]) n = true.
Proof.
  unfold is_leaf. destruct (h !! n) as [x|] eqn:Hn; [|discriminate].
  rewrite (lookup_app_l_Some _ _ _ _ Hn). trivial.
Qed.

Lemma is_leaf_update h n f m :
  (forall o, obj_shape (f o) = obj_shape o) ->
  is_leaf (update h n f) m = is_leaf h m.
Proof.
  intros Hf. unfold is_leaf, leafy. rewrite update_lookup.
  destruct (decide (n = m)); [|reflexivity].
  destruct (h !! m) as [o|]; simpl; [rewrite Hf|]; reflexivity.
Qed.

Lemma digest_update h n f m :
  (n = m -> forall o, h !! m = Some o -> obj_digest (f o) = obj_digest o) ->
  digest (update h n f) m = digest h m.
Proof.
  intros Hf. unfold digest. rewrite update_lookup.
  destruct (decide (n = m)) as [Heq|]; [|reflexivity].
  destruct (h !! m) as [o|] eqn:Hm; simpl; [|reflexivity].
  rewrite (Hf Heq o eq_refl). reflexivity.
Qed.

Section WithHash.

Variable hash_func : pyarg -> option pyarg -> result bytes.
Variable str_encode : string -> string -> result bytes.

Local Abbreviation Node_init := (Node_init hash_func).
Local Abbreviation Leaf_init := (Leaf_init hash_func str_encode).
Local Abbreviation Leaf_init_digest := (Leaf_init_digest hash_func str_encode).
Local Abbreviation recalculate_hash := (recalculate_hash hash_func).
Local Abbreviation digest_equation := (digest_equation hash_func).
Local Abbreviation exec := (exec hash_func str_encode).
Local Abbreviation exec_all := (exec_all hash_func str_encode).

(** ** Node.__init__ *)

(** What the constructor returns when the operands exist and the hash
    function does not raise. *)
Lemma Node_init_returns h enc a b da db d :
  digest h a = inr da ->
  digest h b = inr db ->
  hash_func (PyBytes da) (Some (PyBytes db)) = inr d ->
  Node_init h enc a b =
    inr (List.length h,
         set_child (set_child (h ++ [Object (IsNode a b) enc d None])
                      a (List.length h)) b (List.length h)).
Proof.
  intros Ha Hb Hd. unfold Nodes.Node_init. rewrite Ha, Hb. simpl.
  rewrite Hd. reflexivity.
Qed.

(** Conversely, a constructor that returned has read both digests and
    hashed them. *)
Lemma Node_init_inv h enc a b p h' :
  Node_init h enc a b = inr (p, h') ->
  exists da db d,
    digest h a = inr da /\ digest h b = inr db /\
    hash_func (PyBytes da) (Some (PyBytes db)) = inr d /\
    p = List.length h /\
    h' = set_child (set_child (h ++ [Object (IsNode a b) enc d None])
                      a (List.length h)) b (List.length h).
Proof.
  unfold Nodes.Node_init. intros H.
  destruct (digest h a) as [e|da]; [discriminate|].
  destruct (digest h b) as [e|db]; [discriminate|]. simpl in H.
  destruct (hash_func (PyBytes da) (Some (PyBytes db))) as [e|d] eqn:Hd.
  - destruct e; discriminate.
  - simpl in H. injection H as <- <-. exists da, db, d. auto.
Qed.

(** C4. Constructing an internal node from two existing nodes [a] and
    [b] (when hashing their digests does not raise) returns a new node
    [p] with [p.left == a], [p.right == b], [a.child == p] and
    [b.child == p]. *)
Theorem Node_init_links (h : heap) (enc : string) (a b : handle)
    (da db d : bytes) :
  digest h a = inr da ->
  digest h b = inr db ->
  hash_func (PyBytes da) (Some (PyBytes db)) = inr d ->
  exists p h',
    Node_init h enc a b = inr (p, h') /\
    h !! p = None /\
    left h' p = inr a /\ right h' p = inr b /\
    child h' a = inr p /\ child h' b = inr p.
Proof.
  intros Ha Hb Hd. eexists _, _.
  split; [eapply Node_init_returns; eassumption|].
  pose proof (digest_allocated _ _ _ Ha) as HaL.
  pose proof (digest_allocated _ _ _ Hb) as HbL.
  set (o := Object (IsNode a b) enc d None).
  split; [apply lookup_ge_None_2; lia|].
  split; [|split; [|split]].
  - rewrite !left_set_child. unfold left. rewrite alloc_lookup_new. reflexivity.
  - rewrite !right_set_child. unfold right. rewrite alloc_lookup_new. reflexivity.
  - destruct (decide (b = a)) as [->|Hne].
    + apply child_set_child_eq. rewrite set_child_length, length_app. simpl. lia.
    + rewrite child_set_child_ne by exact Hne.
      apply child_set_child_eq. rewrite length_app. simpl. lia.
  - apply child_set_child_eq. rewrite set_child_length, length_app. simpl. lia.
Qed.

(** ** The digest of an internal node *)

Lemma digest_equation_intro h n l r dl dr d :
  left h n = inr l -> right h n = inr r ->
  digest h l = inr dl -> digest h r = inr dr -> digest h n = inr d ->
  hash_func (PyBytes dl) (Some (PyBytes dr)) = inr d ->
  digest_equation h n = true.
Proof.
  intros Hl Hr Hdl Hdr Hd Hh. unfold Nodes.digest_equation.
  rewrite Hl, Hr, Hdl, Hdr, Hd. apply bool_decide_eq_true_2, Hh.
Qed.

Lemma digest_equation_elim h n :
  digest_equation h n = true ->
  exists l r dl dr d,
    left h n = inr l /\ right h n = inr r /\
    digest h l = inr dl /\ digest h r = inr dr /\ digest h n = inr d /\
    hash_func (PyBytes dl) (Some (PyBytes dr)) = inr d.
Proof.
  unfold Nodes.digest_equation. intros H.
  destruct (left h n) as [|l]; [discriminate|].
  destruct (right h n) as [|r]; [discriminate|].
  destruct (digest h l) as [|dl] eqn:Hdl; [discriminate|].
  destruct (digest h r) as [|dr] eqn:Hdr; [discriminate|].
  destruct (digest h n) as [|d] eqn:Hd; [discriminate|].
  apply bool_decide_eq_true_1 in H.
  exists l, r, dl, dr, d. repeat split; trivial.
Qed.

Lemma left_update h n f m :
  (forall o, obj_shape (f o) = obj_shape o) ->
  left (update h n f) m = left h m.
Proof.
  intros Hf. unfold left. rewrite update_lookup.
  destruct (decide (n = m)); [|reflexivity].
  destruct (h !! m) as [o|]; simpl; [rewrite Hf|]; reflexivity.
Qed.

Lemma right_update h n f m :
  (forall o, obj_shape (f o) = obj_shape o) ->
  right (update h n f) m = right h m.
Proof.
  intros Hf. unfold right. rewrite update_lookup.
  destruct (decide (n = m)); [|reflexivity].
  destruct (h !! m) as [o|]; simpl; [rewrite Hf|]; reflexivity.
Qed.

Lemma digest_with_digest_eq h n d :
  n < List.length h -> digest (update h n (with_digest d)) n = inr d.
Proof.
  intros Hn. destruct (lookup_lt_is_Some_2 h n Hn) as [o Ho].
  unfold digest. rewrite (update_lookup_eq _ _ _ _ Ho). reflexivity.
Qed.

Lemma digest_with_digest_ne h n d m :
  n <> m -> digest (update h n (with_digest d)) m = digest h m.
Proof. intros Hne. apply digest_update. intros Heq. contradiction. Qed.

Lemma left_allocated h n l : left h n = inr l -> n < List.length h.
Proof.
  unfold left. destruct (h !! n) eqn:Hn; [|discriminate].
  intros _. eapply lookup_lt_Some, Hn.
Qed.

(** What [recalculate_hash] returns when the operands exist and the hash
    function does not raise. *)
Lemma recalculate_hash_returns h n l r dl dr d :
  left h n = inr l -> right h n = inr r ->
  digest h l = inr dl -> digest h r = inr dr ->
  hash_func (PyBytes dl) (Some (PyBytes dr)) = inr d ->
  recalculate_hash h n = inr (update h n (with_digest d)).
Proof.
  intros Hl Hr Hdl Hdr Hd. unfold Nodes.recalculate_hash.
  rewrite Hl, Hr. simpl. rewrite Hdl, Hdr. simpl. rewrite Hd. simpl.
  unfold left in Hl. destruct (h !! n) as [o|]; [|discriminate].
  destruct (obj_shape o); [discriminate|reflexivity].
Qed.

(** The recalculation stores the hash of the digests the operands had
    when it was called; the equation holds afterwards provided the node is
    not its own operand, whose digest would have changed under it. *)
Lemma recalculate_hash_restores h n l r dl dr d :
  left h n = inr l -> right h n = inr r ->
  digest h l = inr dl -> digest h r = inr dr ->
  hash_func (PyBytes dl) (Some (PyBytes dr)) = inr d ->
  exists h',
    recalculate_hash h n = inr h' /\
    left h' n = inr l /\ right h' n = inr r /\
    digest h' n = inr d /\
    (l <> n -> r <> n -> digest_equation h' n = true).
Proof.
  intros Hl Hr Hdl Hdr Hd.
  exists (update h n (with_digest d)).
  split; [eapply recalculate_hash_returns; eassumption|].
  assert (Hl' : left (update h n (with_digest d)) n = inr l)
    by (rewrite left_update by reflexivity; exact Hl).
  assert (Hr' : right (update h n (with_digest d)) n = inr r)
    by (rewrite right_update by reflexivity; exact Hr).
  assert (Hd' : digest (update h n (with_digest d)) n = inr d)
    by (apply digest_with_digest_eq; eapply left_allocated, Hl).
  repeat split; try assumption.
  intros Hln Hrn.
  eapply digest_equation_intro; try eassumption.
  - rewrite digest_with_digest_ne by congruence. exact Hdl.
  - rewrite digest_with_digest_ne by congruence. exact Hdr.
Qed.

Lemma set_left_inv h n x h1 :
  set_left h n x = inr h1 ->
  h1 = update h n (with_left x) /\ left h1 n = inr x /\
  right h1 n = right h n /\ forall m, digest h1 m = digest h m.
Proof.
  unfold set_left. destruct (h !! n) as [o|] eqn:Hn; [|discriminate].
  destruct (obj_shape o) as [|l r] eqn:Ho; [discriminate|].
  intros [= <-]. split; [reflexivity|]. split; [|split].
  - unfold left. rewrite (update_lookup_eq _ _ _ _ Hn).
    unfold with_left. rewrite Ho. reflexivity.
  - unfold right. rewrite (update_lookup_eq _ _ _ _ Hn), Hn.
    unfold with_left. rewrite Ho. reflexivity.
  - intros m. apply digest_update. intros _ o' _.
    unfold with_left. destruct (obj_shape o'); reflexivity.
Qed.

Lemma set_right_inv h n x h1 :
  set_right h n x = inr h1 ->
  h1 = update h n (with_right x) /\ right h1 n = inr x /\
  left h1 n = left h n /\ forall m, digest h1 m = digest h m.
Proof.
  unfold set_right. destruct (h !! n) as [o|] eqn:Hn; [|discriminate].
  destruct (obj_shape o) as [|l r] eqn:Ho; [discriminate|].
  intros [= <-]. split; [reflexivity|]. split; [|split].
  - unfold right. rewrite (update_lookup_eq _ _ _ _ Hn).
    unfold with_right. rewrite Ho. reflexivity.
  - unfold left. rewrite (update_lookup_eq _ _ _ _ Hn), Hn.
    unfold with_right. rewrite Ho. reflexivity.
  - intros m. apply digest_update. intros _ o' _.
    unfold with_right. destruct (obj_shape o'); reflexivity.
Qed.

(** [Node.__init__] keeps the equation at every node that had it. *)
Lemma Node_init_frame h enc a b p h' m :
  Node_init h enc a b = inr (p, h') ->
  digest_equation h m = true -> digest_equation h' m = true.
Proof.
  intros Hinit Hm.
  apply Node_init_inv in Hinit as (da & db & d & _ & _ & _ & _ & ->).
  apply digest_equation_elim in Hm
    as (l & r & dl & dr & dm & Hl & Hr & Hdl & Hdr & Hdm & Hh).
  eapply digest_equation_intro.
  - rewrite !left_set_child. apply left_alloc, Hl.
  - rewrite !right_set_child. apply right_alloc, Hr.
  - rewrite !digest_set_child. apply digest_alloc, Hdl.
  - rewrite !digest_set_child. apply digest_alloc, Hdr.
  - rewrite !digest_set_child. apply digest_alloc, Hdm.
  - exact Hh.
Qed.

(** C1. The digest of an internal node is the hash of the digests of its
    left and right operands: [Node.__init__] on operands [a] and [b] sets
    the digest to [hash_func(a.digest, b.digest)] and keeps the equation
    at the nodes that had it; and once [set_left] or [set_right] has
    re-pointed a link of a node, [recalculate_hash] stores the hash of the
    digests of the operands the node has now, which makes the equation
    hold again at that node (no node being its own operand). *)
Theorem digest_is_hash_of_operands :
  (forall h enc a b da db d,
     digest h a = inr da -> digest h b = inr db ->
     hash_func (PyBytes da) (Some (PyBytes db)) = inr d ->
     exists p h',
       Node_init h enc a b = inr (p, h') /\
       digest h' p = inr d /\ digest_equation h' p = true /\
       forall m, digest_equation h m = true -> digest_equation h' m = true) /\
  (forall h n x h1 r dx dr d,
     set_left h n x = inr h1 ->
     right h n = inr r ->
     digest h x = inr dx -> digest h r = inr dr ->
     hash_func (PyBytes dx) (Some (PyBytes dr)) = inr d ->
     exists h2,
       recalculate_hash h1 n = inr h2 /\
       left h2 n = inr x /\ right h2 n = inr r /\
       digest h2 n = inr d /\
       (x <> n -> r <> n -> digest_equation h2 n = true)) /\
  (forall h n x h1 l dl dx d,
     set_right h n x = inr h1 ->
     left h n = inr l ->
     digest h l = inr dl -> digest h x = inr dx ->
     hash_func (PyBytes dl) (Some (PyBytes dx)) = inr d ->
     exists h2,
       recalculate_hash h1 n = inr h2 /\
       left h2 n = inr l /\ right h2 n = inr x /\
       digest h2 n = inr d /\
       (l <> n -> x <> n -> digest_equation h2 n = true)).
Proof.
  split; [|split].
  - intros h enc a b da db d Ha Hb Hd.
    pose proof (Node_init_returns h enc a b da db d Ha Hb Hd) as Hinit.
    eexists _, _. split; [exact Hinit|].
    pose proof (digest_allocated _ _ _ Ha) as HaL.
    pose proof (digest_allocated _ _ _ Hb) as HbL.
    assert (Hp : digest
      (set_child (set_child (h ++ [Object (IsNode a b) enc d None])
         a (List.length h)) b (List.length h)) (List.length h) = inr d).
    { rewrite !digest_set_child. unfold digest.
      rewrite alloc_lookup_new. reflexivity. }
    split; [exact Hp|]. split.
    + eapply digest_equation_intro; [| | | |exact Hp|exact Hd].
      * rewrite !left_set_child. unfold left.
        rewrite alloc_lookup_new. reflexivity.
      * rewrite !right_set_child. unfold right.
        rewrite alloc_lookup_new. reflexivity.
      * rewrite !digest_set_child. apply digest_alloc, Ha.
      * rewrite !digest_set_child. apply digest_alloc, Hb.
    + intros m. eapply Node_init_frame, Hinit.
  - intros h n x h1 r dx dr d Hset Hr Hdx Hdr Hd.
    apply set_left_inv in Hset as (_ & Hl1 & Hr1 & Hdig).
    eapply recalculate_hash_restores; try eassumption.
    + rewrite Hr1. exact Hr.
    + rewrite Hdig. exact Hdx.
    + rewrite Hdig. exact Hdr.
  - intros h n x h1 l dl dx d Hset Hl Hdl Hdx Hd.
    apply set_right_inv in Hset as (_ & Hr1 & Hl1 & Hdig).
    eapply recalculate_hash_restores; try eassumption.
    + rewrite Hl1. exact Hl.
    + rewrite Hdig. exact Hdl.
    + rewrite Hdig. exact Hdx.
Qed.


(** ** Leaf.__init__ *)

Lemma Leaf_init_from_record h enc r d :
  truthy r = true -> hash_func r None = inr d ->
  Leaf_init h enc (Some r) None =
    inr (List.length h, h ++ [Object IsLeaf enc d None]).
Proof.
  intros Hr Hd. unfold Nodes.Leaf_init, Nodes.Leaf_init_digest. simpl.
  rewrite Hr, Hd. reflexivity.
Qed.

Lemma Leaf_init_from_digest h enc x d :
  truthy x = true -> py_bytes str_encode x enc = inr d ->
  Leaf_init h enc None (Some x) =
    inr (List.length h, h ++ [Object IsLeaf enc d None]).
Proof.
  intros Hx Hd. unfold Nodes.Leaf_init, Nodes.Leaf_init_digest. simpl.
  rewrite Hx, Hd. reflexivity.
Qed.

(** A constructor that returned has allocated one leaf. *)
Lemma Leaf_init_inv h enc record dig l h' :
  Leaf_init h enc record dig = inr (l, h') ->
  exists d, Leaf_init_digest enc record dig = inr d /\
            l = List.length h /\ h' = h ++ [Object IsLeaf enc d None].
Proof.
  unfold Nodes.Leaf_init.
  destruct (Leaf_init_digest enc record dig) as [e|d]; [discriminate|].
  simpl. intros [= <- <-]. exists d. auto.
Qed.

(** The digest comes from the record through [hash_func], or from the
    supplied digest through [bytes(digest, encoding)]. *)
Lemma Leaf_init_digest_inv enc record dig d :
  Leaf_init_digest enc record dig = inr d ->
  (dig = None /\ exists r, record = Some r /\ truthy r = true /\
                           hash_func r None = inr d) \/
  (record = None /\ exists x, dig = Some x /\ truthy x = true /\
                              py_bytes str_encode x enc = inr d).
Proof.
  unfold Nodes.Leaf_init_digest.
  destruct dig as [x|], record as [r|]; simpl.
  - discriminate.
  - destruct (truthy x) eqn:Hx; [|discriminate].
    intros H. right. split; [reflexivity|]. exists x. auto.
  - destruct (truthy r) eqn:Hr; [|discriminate].
    destruct (hash_func r None) as [e|d'] eqn:Hd.
    + destruct e; discriminate.
    + intros [= <-]. left. split; [reflexivity|]. exists r. auto.
  - discriminate.
Qed.

(** ** The digest of a leaf *)

Lemma is_leaf_update_leafy h n f m :
  (forall o, leafy (f o) = leafy o) ->
  is_leaf (update h n f) m = is_leaf h m.
Proof.
  intros Hf. unfold is_leaf. rewrite update_lookup.
  destruct (decide (n = m)); [|reflexivity].
  destruct (h !! m) as [o|]; simpl; [|reflexivity].
  apply (Hf o).
Qed.

Lemma with_left_leafy x o : leafy (with_left x o) = leafy o.
Proof. unfold with_left, leafy. destruct (obj_shape o) eqn:E; simpl; rewrite ?E; reflexivity. Qed.

Lemma with_right_leafy x o : leafy (with_right x o) = leafy o.
Proof. unfold with_right, leafy. destruct (obj_shape o) eqn:E; simpl; rewrite ?E; reflexivity. Qed.

Lemma recalculate_hash_inv h n h' :
  recalculate_hash h n = inr h' ->
  exists d, h' = update h n (with_digest d) /\ is_leaf h n = false.
Proof.
  unfold Nodes.recalculate_hash, is_leaf, leafy.
  destruct (h !! n) as [o|]; [|discriminate].
  destruct (obj_shape o) as [|l0 r0]; [discriminate|].
  destruct (left h n) as [|l]; [discriminate|]. simpl.
  destruct (digest h l) as [|dl]; [discriminate|]. simpl.
  destruct (right h n) as [|r]; [discriminate|]. simpl.
  destruct (digest h r) as [|dr]; [discriminate|]. simpl.
  destruct (hash_func (PyBytes dl) (Some (PyBytes dr))) as [|d]; [discriminate|].
  simpl. intros [= <-]. exists d. auto.
Qed.

(** No operation changes what a leaf stores as digest. *)
Lemma exec_keeps_leaf h o l :
  is_leaf h l = true ->
  is_leaf (exec h o) l = true /\ digest (exec h o) l = digest h l.
Proof.
  intros Hl.
  assert (Hd : exists d, digest h l = inr d).
  { unfold is_leaf in Hl. unfold digest.
    destruct (h !! l) as [x|]; [eauto|discriminate]. }
  destruct Hd as [d Hd].
  destruct o as [enc record dig|enc a b|n c|n x|n x|n]; simpl.
  - destruct (Leaf_init h enc record dig) as [e|[p h']] eqn:Hinit; [auto|].
    apply Leaf_init_inv in Hinit as (d' & _ & _ & ->).
    split; [apply is_leaf_alloc, Hl|]. rewrite Hd. apply digest_alloc, Hd.
  - destruct (Node_init h enc a b) as [e|[p h']] eqn:Hinit; [auto|].
    apply Node_init_inv in Hinit as (da & db & d' & _ & _ & _ & _ & ->).
    unfold set_child. rewrite !is_leaf_update by reflexivity.
    split; [apply is_leaf_alloc, Hl|].
    fold (set_child (h ++ [Object (IsNode a b) enc d' None]) a (List.length h)).
    fold (set_child (set_child (h ++ [Object (IsNode a b) enc d' None]) a
                       (List.length h)) b (List.length h)).
    rewrite !digest_set_child, Hd. apply digest_alloc, Hd.
  - unfold set_child at 1. rewrite is_leaf_update by reflexivity.
    split; [exact Hl|]. apply digest_set_child.
  - destruct (set_left h n x) as [e|h'] eqn:Hset; [auto|].
    apply set_left_inv in Hset as (-> & _ & _ & Hdig).
    split; [|apply Hdig].
    rewrite is_leaf_update_leafy by apply with_left_leafy. exact Hl.
  - destruct (set_right h n x) as [e|h'] eqn:Hset; [auto|].
    apply set_right_inv in Hset as (-> & _ & _ & Hdig).
    split; [|apply Hdig].
    rewrite is_leaf_update_leafy by apply with_right_leafy. exact Hl.
  - destruct (recalculate_hash h n) as [e|h'] eqn:Hre; [auto|].
    apply recalculate_hash_inv in Hre as (d' & -> & Hn).
    rewrite is_leaf_update by reflexivity. split; [exact Hl|].
    apply digest_with_digest_ne. intros ->. congruence.
Qed.

Lemma exec_all_keeps_leaf os : forall h l,
  is_leaf h l = true ->
  is_leaf (exec_all h os) l = true /\ digest (exec_all h os) l = digest h l.
Proof.
  induction os as [|o os IH]; intros h l Hl; [auto|].
  destruct (exec_keeps_leaf h o l Hl) as [Hl' Hd'].
  destruct (IH (exec h o) l Hl') as [Hl'' Hd''].
  simpl. fold (exec_all (exec h o) os). split; [exact Hl''|congruence].
Qed.

(** C9. A leaf constructed from a (non-empty) record stores what
    [hash_func] returns for the record; a leaf constructed from a
    (non-empty) digest stores that digest as bytes, [bytes(digest,
    encoding)]; and whatever constructors and methods of the module run
    afterwards, a leaf stores the same digest. *)
Theorem Leaf_digest_stored_and_kept :
  (forall h enc r d,
     truthy r = true -> hash_func r None = inr d ->
     exists l h',
       Leaf_init h enc (Some r) None = inr (l, h') /\
       is_leaf h' l = true /\ digest h' l = inr d) /\
  (forall h enc x d,
     truthy x = true -> py_bytes str_encode x enc = inr d ->
     exists l h',
       Leaf_init h enc None (Some x) = inr (l, h') /\
       is_leaf h' l = true /\ digest h' l = inr d) /\
  (forall h l os,
     is_leaf h l = true ->
     is_leaf (exec_all h os) l = true /\
     digest (exec_all h os) l = digest h l).
Proof.
  split; [|split].
  - intros h enc r d Hr Hd. eexists _, _.
    split; [apply Leaf_init_from_record; eassumption|].
    unfold is_leaf, digest. rewrite alloc_lookup_new. auto.
  - intros h enc x d Hx Hd. eexists _, _.
    split; [apply Leaf_init_from_digest; eassumption|].
    unfold is_leaf, digest. rewrite alloc_lookup_new. auto.
  - intros h l os. apply exec_all_keeps_leaf.
Qed.

(** ** A record that cannot be encoded *)

Lemma Leaf_init_digest_undecodable enc r :
  truthy r = true ->
  hash_func r None = inl UndecodableArgumentError ->
  Leaf_init_digest enc (Some r) None = inl UndecodableRecord.
Proof.
  intros Hr Hd. unfold Nodes.Leaf_init_digest. simpl.
  rewrite Hr, Hd. reflexivity.
Qed.

(** C7. When [hash_func] cannot encode the (non-empty) record, the leaf
    constructor raises [UndecodableRecord]; it has stored no digest and
    the store is as it was. *)
Theorem Leaf_init_undecodable (h : heap) (enc : string) (r : pyarg) :
  truthy r = true ->
  hash_func r None = inl UndecodableArgumentError ->
  Leaf_init_digest enc (Some r) None = inl UndecodableRecord /\
  Leaf_init h enc (Some r) None = inl UndecodableRecord /\
  exec h (NewLeaf enc (Some r) None) = h.
Proof.
  intros Hr Hd.
  pose proof (Leaf_init_digest_undecodable enc r Hr Hd) as H1.
  assert (H2 : Leaf_init h enc (Some r) None = inl UndecodableRecord).
  { unfold Nodes.Leaf_init. rewrite H1. reflexivity. }
  repeat split; [exact H1|exact H2|]. simpl. rewrite H2. reflexivity.
Qed.

(** ** LeafConstructionError *)

(** The constructor takes its third branch exactly when neither test of
    the first two holds. *)
Lemma Leaf_init_construction_error h enc record dig :
  (forall a, hash_func a None <> inl LeafConstructionError) ->
  (forall s, str_encode enc s <> inl LeafConstructionError) ->
  Leaf_init h enc record dig = inl LeafConstructionError <->
  (is_None dig && truthy_opt record) || (is_None record && truthy_opt dig)
    = false.
Proof.
  intros Hh He.
  unfold Nodes.Leaf_init, Nodes.Leaf_init_digest, bind, raise, ret.
  destruct dig as [x|], record as [r|]; simpl.
  - split; reflexivity.
  - destruct (truthy x); simpl; [|split; reflexivity].
    destruct x as [s|b]; simpl.
    + specialize (He s). destruct (str_encode enc s) as [e|d];
        split; congruence.
    + unfold raise. split; discriminate.
  - rewrite orb_false_r. destruct (truthy r); simpl; [|split; reflexivity].
    specialize (Hh r). destruct (hash_func r None) as [e|d].
    + destruct e; split; congruence.
    + split; discriminate.
  - split; reflexivity.
Qed.

(** C6. Given an empty record and no digest, that is exactly one of the
    two, the constructor raises [LeafConstructionError]; the same for an
    empty digest and no record. *)
Theorem Leaf_init_empty_record (h : heap) (enc : string) :
  Leaf_init h enc (Some (PyStr EmptyString)) None = inl LeafConstructionError /\
  Leaf_init h enc (Some (PyBytes [])) None = inl LeafConstructionError /\
  Leaf_init h enc None (Some (PyStr EmptyString)) = inl LeafConstructionError.
Proof. repeat split. Qed.


End WithHash.


(** ** The theorems at concrete stores *)

Section Instances.

Import Examples.

(** In [small_tree], leaf 0 is the left operand of node 3, leaf 1 is not,
    and node 3 has no child. *)
Lemma is_parent_of_child_witness :
  is_left_parent small_tree 0 = inr true /\
  ~ is_left_parent small_tree 1 = inr true /\
  is_right_parent small_tree 3 = inr false.
Proof.
  split; [|split].
  - destruct (is_parent_of_child small_tree 0) as (Hl & _ & _).
    apply Hl. exists 3. split; reflexivity.
  - destruct (is_parent_of_child small_tree 1) as (Hl & _ & _).
    intros H. apply Hl in H as (c & Hc & Hleft).
    vm_compute in Hc. injection Hc as <-. vm_compute in Hleft. discriminate.
  - destruct (is_parent_of_child small_tree 3) as (_ & _ & [(_ & _ & H)|(c & Hc)]).
    + exact H.
    + vm_compute in Hc. discriminate.
Defined.

(** One step up from leaf 0 is node 3; two steps up there is nothing. *)
Lemma descendant_follows_child_witness :
  descendant 2 small_tree 0 1 = Some (inr 3) /\
  descendant 3 small_tree 0 2 = Some (inl NoDescendantException).
Proof.
  split.
  - destruct (descendant_follows_child small_tree 0 1 2) as (H & _);
      [lia|simpl; lia|exact H].
  - destruct (descendant_follows_child small_tree 0 2 3) as (H & _);
      [lia|simpl; lia|exact H].
Defined.

(** From leaf 0 the chain ends after node 3, so degree -1 raises. *)
Lemma descendant_total_witness :
  exists fuel0, forall fuel, fuel0 <= fuel ->
    descendant fuel small_tree 0 (-1) = Some (inl NoDescendantException).
Proof.
  destruct (descendant_total small_tree 0 (-1)) as [_ H].
  - exists 2. reflexivity.
  - apply H. lia.
Defined.

(** A node on top of leaves 0 and 1 of [three_leaves]. *)
Lemma Node_init_links_witness :
  exists p h',
    Node_init hash_func three_leaves "utf-8" 0 1 = inr (p, h') /\
    three_leaves !! p = None /\
    left h' p = inr 0 /\ right h' p = inr 1 /\
    child h' 0 = inr p /\ child h' 1 = inr p.
Proof.
  eapply (Node_init_links hash_func three_leaves "utf-8" 0 1); reflexivity.
Defined.

(** Node 3 is constructed with the equation; re-pointing its left link to
    leaf 2 breaks the equation and [recalculate_hash] restores it; the
    same for its right link. *)
Lemma digest_is_hash_of_operands_witness :
  (exists p h',
     Node_init hash_func three_leaves "utf-8" 0 1 = inr (p, h') /\
     digest_equation hash_func h' p = true) /\
  digest_equation hash_func repointed_left 3 = false /\
  (exists h2,
     recalculate_hash hash_func repointed_left 3 = inr h2 /\
     left h2 3 = inr 2 /\ right h2 3 = inr 1 /\
     digest_equation hash_func h2 3 = true) /\
  digest_equation hash_func repointed_right 3 = false /\
  (exists h2,
     recalculate_hash hash_func repointed_right 3 = inr h2 /\
     left h2 3 = inr 0 /\ right h2 3 = inr 2 /\
     digest_equation hash_func h2 3 = true).
Proof.
  destruct (digest_is_hash_of_operands hash_func) as (Hnew & Hleft & Hright).
  split; [|split; [|split; [|split]]].
  - edestruct (Hnew three_leaves "utf-8"%string 0 1)
      as (p & h' & H1 & _ & H2 & _); [reflexivity|reflexivity|reflexivity|].
    exists p, h'. split; assumption.
  - reflexivity.
  - edestruct (Hleft small_tree 3 2 repointed_left 1)
      as (h2 & H1 & H2 & H3 & _ & H4);
      [reflexivity|reflexivity|reflexivity|reflexivity|reflexivity|].
    exists h2. repeat split; try assumption. apply H4; lia.
  - reflexivity.
  - edestruct (Hright small_tree 3 2 repointed_right 0)
      as (h2 & H1 & H2 & H3 & _ & H4);
      [reflexivity|reflexivity|reflexivity|reflexivity|reflexivity|].
    exists h2. repeat split; try assumption. apply H4; lia.
Defined.

(** A node that is its own operand does not satisfy the equation after
    [recalculate_hash]: the digest hashed is the one just replaced. *)
Example self_operand_equation :
  left self_linked 3 = inr 3 /\
  digest_equation hash_func self_linked 3 = false.
Proof. split; reflexivity. Qed.

(** A leaf from the record "a", a leaf from the digest "ab", and leaf 0
    of [three_leaves] through a run of all four mutating methods. *)
Lemma Leaf_digest_stored_and_kept_witness :
  (exists l h',
     Leaf_init hash_func ascii_codec [] "utf-8" (Some (PyStr "a")) None
       = inr (l, h') /\
     is_leaf h' l = true /\ digest h' l = inr [x00; x61]) /\
  (exists l h',
     Leaf_init hash_func ascii_codec [] "utf-8" None (Some (PyStr "ab"))
       = inr (l, h') /\
     is_leaf h' l = true /\ digest h' l = inr [x61; x62]) /\
  digest (exec_all hash_func ascii_codec three_leaves
            [NewNode "utf-8" 0 1; SetLeft 3 2; RecalculateHash 3;
             SetRight 3 0; SetChild 0 2]) 0
    = inr [x00; x61].
Proof.
  destruct (Leaf_digest_stored_and_kept hash_func ascii_codec)
    as (Hrecord & Hdigest & Hkept).
  split; [|split].
  - apply Hrecord; reflexivity.
  - apply Hdigest; reflexivity.
  - destruct (Hkept three_leaves 0
                [NewNode "utf-8"%string 0 1; SetLeft 3 2; RecalculateHash 3;
                 SetRight 3 0; SetChild 0 2] eq_refl) as [_ H].
    rewrite H. reflexivity.
Defined.

(** Under the ascii codec the record with code point 233 cannot be
    encoded. *)
Lemma Leaf_init_undecodable_witness :
  Leaf_init_digest hash_func ascii_codec "utf-8" (Some (PyStr e_acute)) None
    = inl UndecodableRecord /\
  Leaf_init hash_func ascii_codec three_leaves "utf-8" (Some (PyStr e_acute)) None
    = inl UndecodableRecord /\
  exec hash_func ascii_codec three_leaves
    (NewLeaf "utf-8" (Some (PyStr e_acute)) None) = three_leaves.
Proof.
  apply (Leaf_init_undecodable hash_func ascii_codec three_leaves
           "utf-8" (PyStr e_acute)); reflexivity.
Defined.

End Instances.


End NodesTheory.

(** * Properties of the tree, the audit proofs and the verifier *)

Module TreeTheory.

Import Nodes.
Import Tree.

Section WithAlgorithms.

Variable algorithm : hash_type -> bytes -> bytes.
Variable str_encode : string -> string -> result bytes.

Local Abbreviation hash := (hash algorithm str_encode).
Local Abbreviation hash_pair := (hash_pair algorithm).
Local Abbreviation join := (join algorithm).
Local Abbreviation digests_ok := (digests_ok algorithm).
Local Abbreviation merge_up := (merge_up algorithm).
Local Abbreviation append_leaf := (append_leaf algorithm).
Local Abbreviation update := (update algorithm str_encode).
Local Abbreviation update_all := (update_all algorithm str_encode).
Local Abbreviation build := (build algorithm str_encode).
Local Abbreviation fold_subroots := (fold_subroots algorithm).
Local Abbreviation rootHash := (rootHash algorithm).
Local Abbreviation audit_path := (audit_path algorithm).
Local Abbreviation resolve := (resolve algorithm str_encode).
Local Abbreviation auditProof := (auditProof algorithm str_encode).
Local Abbreviation replay_step := (replay_step algorithm).
Local Abbreviation replay := (replay algorithm).
Local Abbreviation validateProof := (validateProof algorithm).

(** ** The hash engine *)

Lemma hash_two_digests cfg a b :
  hash cfg (PyBytes a) (Some (PyBytes b)) = inr (hash_pair cfg a b).
Proof. reflexivity. Qed.

(** A record and its encoded bytes have the same digest. *)
Lemma hash_encoded cfg r b :
  to_bytes str_encode cfg r = inr b ->
  hash cfg (PyBytes b) None = hash cfg r None.
Proof.
  intros Hb. unfold Tree.hash. rewrite Hb. reflexivity.
Qed.

Lemma hash_returns_encoded cfg r d :
  hash cfg r None = inr d -> exists b, to_bytes str_encode cfg r = inr b.
Proof.
  unfold Tree.hash. destruct (to_bytes str_encode cfg r) as [e|b]; [discriminate|].
  eauto.
Qed.

(** ** Replaying a path *)

Lemma replay_app cfg acc p q :
  replay cfg acc (p ++ q) = replay cfg (replay cfg acc p) q.
Proof. apply fold_left_app. Qed.

(** Inside a node whose digests are in order, replaying the path of a
    leaf from the digest of that leaf gives the digest of the node. *)
Lemma path_in_replay cfg n : digests_ok cfg n ->
  forall i d, leaf_in n i = Some d ->
  replay cfg d (path_in n i) = node_digest n.
Proof.
  unfold leaf_in.
  induction n as [d0|d0 l IHl r IHr]; intros Hok i d Hi.
  - destruct i as [|i]; simpl in Hi; [|discriminate].
    injection Hi as <-. reflexivity.
  - destruct Hok as (-> & Hl & Hr). simpl in Hi. cbn [path_in node_digest].
    unfold leaf_count.
    destruct (Nat.ltb_spec i (List.length (leaf_digests l))) as [Hlt|Hge].
    + rewrite lookup_app_l in Hi by exact Hlt.
      rewrite replay_app, (IHl Hl i d Hi). reflexivity.
    + rewrite lookup_app_r in Hi by exact Hge.
      rewrite replay_app, (IHr Hr _ d Hi). reflexivity.
Qed.

(** Over a list of sub-roots whose digests are in order, replaying the
    audit path gives the right-folded hash of the sub-roots. *)
Lemma audit_path_replay cfg ts : Forall (digests_ok cfg) ts ->
  forall i d p, audit_path cfg ts i = Some (d, p) ->
  fold_subroots cfg ts = Some (replay cfg d p).
Proof.
  induction ts as [|t ts IH]; intros Hok i d p Hp; [discriminate|].
  apply Forall_cons in Hok as [Ht Hts]. cbn [Tree.audit_path] in Hp.
  cbn [Tree.fold_subroots].
  destruct (Nat.ltb i (leaf_count t)).
  - destruct (leaf_in t i) as [d'|] eqn:Hd; [|discriminate].
    injection Hp as <- <-. rewrite replay_app, (path_in_replay cfg t Ht i d' Hd).
    destruct (fold_subroots cfg ts); reflexivity.
  - destruct (audit_path cfg ts (i - leaf_count t)) as [[d' p']|] eqn:Hrec;
      [|discriminate].
    injection Hp as <- <-. rewrite (IH Hts _ _ _ Hrec), replay_app. reflexivity.
Qed.

(** The audit path exists exactly for the positions of leaves, and starts
    from the digest of the leaf at the position. *)
Lemma audit_path_in_range cfg ts : forall i d,
  concat (map leaf_digests ts) !! i = Some d ->
  exists p, audit_path cfg ts i = Some (d, p).
Proof.
  induction ts as [|t ts IH]; intros i d Hi; [discriminate|].
  simpl in Hi. cbn [Tree.audit_path].
  destruct (Nat.ltb_spec i (leaf_count t)) as [Hlt|Hge].
  - rewrite lookup_app_l in Hi by exact Hlt. unfold leaf_in. rewrite Hi. eauto.
  - rewrite lookup_app_r in Hi by exact Hge.
    destruct (IH _ _ Hi) as [p Hp]. fold (leaf_count t) in Hp.
    rewrite Hp. eauto.
Qed.

Lemma audit_path_out_of_range cfg ts : forall i,
  List.length (concat (map leaf_digests ts)) <= i ->
  audit_path cfg ts i = None.
Proof.
  induction ts as [|t ts IH]; intros i Hi; [reflexivity|].
  simpl in Hi. rewrite length_app in Hi. fold (leaf_count t) in Hi.
  cbn [Tree.audit_path].
  destruct (Nat.ltb_spec i (leaf_count t)) as [Hlt|Hge]; [lia|].
  rewrite IH by lia. reflexivity.
Qed.

(** ** Appending *)

Lemma join_ok cfg l r :
  digests_ok cfg l -> digests_ok cfg r -> digests_ok cfg (join cfg l r).
Proof. intros Hl Hr. simpl. auto. Qed.

Lemma merge_up_ok cfg rs : forall t,
  digests_ok cfg t -> Forall (digests_ok cfg) rs ->
  Forall (digests_ok cfg) (merge_up cfg t rs).
Proof.
  induction rs as [|s rs IH]; intros t Ht Hrs; simpl.
  - apply Forall_cons. split; [exact Ht|apply Forall_nil_2].
  - apply Forall_cons in Hrs as [Hs Hrs].
    destruct (Nat.eqb (height s) (height t)).
    + apply IH; [apply join_ok; assumption|exact Hrs].
    + repeat (apply Forall_cons; split); assumption.
Qed.

(** The upward merge keeps the leaves and their order. *)
Lemma merge_up_leaves cfg rs : forall t,
  concat (map leaf_digests (rev (merge_up cfg t rs))) =
  concat (map leaf_digests (rev rs)) ++ leaf_digests t.
Proof.
  induction rs as [|s rs IH]; intros t; simpl.
  - apply app_nil_r.
  - destruct (Nat.eqb (height s) (height t)).
    + rewrite IH. simpl. rewrite map_app, concat_app. simpl.
      rewrite app_nil_r, app_assoc. reflexivity.
    + simpl. rewrite !map_app, !concat_app. simpl.
      rewrite !app_nil_r. reflexivity.
Qed.

Lemma append_leaf_leaves T d : leaves (append_leaf T d) = leaves T ++ [d].
Proof.
  unfold leaves, Tree.append_leaf. simpl.
  rewrite merge_up_leaves, rev_involutive. reflexivity.
Qed.

Lemma append_leaf_ok T d :
  Forall (digests_ok (tree_config T)) (subroots T) ->
  Forall (digests_ok (tree_config T)) (subroots (append_leaf T d)).
Proof.
  intros Hok. unfold Tree.append_leaf. simpl.
  apply Forall_rev, merge_up_ok; [exact I|]. apply Forall_rev, Hok.
Qed.

(** What a successful [update] has done. *)
Lemma update_inv T r T' :
  update T r = inr T' ->
  exists d,
    truthy r = true /\ hash (tree_config T) r None = inr d /\
    T' = append_leaf T d.
Proof.
  unfold Tree.update. intros H.
  destruct (Leaf_init_digest (hash (tree_config T)) str_encode
              (cfg_encoding (tree_config T)) (Some r) None) as [e|d] eqn:Hd;
    [discriminate|].
  simpl in H. injection H as <-.
  apply NodesTheory.Leaf_init_digest_inv in Hd
    as [(_ & r' & [= <-] & Hr & Hh)|(Hnone & _)]; [|discriminate].
  exists d. auto.
Qed.

(** The record of every leaf that a sequence of updates has added hashes
    to the digest the leaf stores. *)
Lemma update_all_inv records : forall T T',
  update_all T records = inr T' ->
  tree_config T' = tree_config T /\
  (Forall (digests_ok (tree_config T)) (subroots T) ->
   Forall (digests_ok (tree_config T)) (subroots T')) /\
  exists ds,
    leaves T' = leaves T ++ ds /\
    Forall2 (fun r d => hash (tree_config T) r None = inr d) records ds.
Proof.
  induction records as [|r records IH]; intros T T' H; simpl in H.
  - injection H as <-. split; [reflexivity|]. split; [auto|].
    exists []. split; [symmetry; apply app_nil_r|constructor].
  - destruct (update T r) as [e|T1] eqn:Hup; [discriminate|]. simpl in H.
    apply update_inv in Hup as (d & _ & Hd & ->).
    apply IH in H as (Hcfg & Hok & ds & Hleaves & Hds).
    simpl in Hcfg, Hok, Hds. split; [exact Hcfg|]. split.
    + intros HT. apply Hok. apply (append_leaf_ok T d HT).
    + exists (d :: ds). split.
      * rewrite Hleaves, append_leaf_leaves, <- app_assoc. reflexivity.
      * constructor; assumption.
Qed.

Lemma build_inv cfg records T :
  build cfg records = inr T ->
  tree_config T = cfg /\
  Forall (digests_ok cfg) (subroots T) /\
  Forall2 (fun r d => hash cfg r None = inr d) records (leaves T).
Proof.
  intros H. apply update_all_inv in H as (Hcfg & Hok & ds & Hleaves & Hds).
  simpl in Hcfg, Hok, Hds. split; [exact Hcfg|].
  split; [apply Hok; constructor|].
  rewrite Hleaves. exact Hds.
Qed.

(** [length] is the number of appended records. *)
Lemma build_length cfg records T :
  build cfg records = inr T -> length T = List.length records.
Proof.
  intros H. apply build_inv in H as (_ & _ & H).
  symmetry. apply (Forall2_length _ _ _ H).
Qed.

(** ** Looking a digest up *)

Lemma find_digest_Some d ds : forall j,
  find_digest d ds = Some j -> ds !! j = Some d.
Proof.
  induction ds as [|x ds IH]; intros j H; simpl in H; [discriminate|].
  destruct (bool_decide (x = d)) eqn:Hx.
  - injection H as <-. apply bool_decide_eq_true_1 in Hx. simpl. congruence.
  - destruct (find_digest d ds) as [j'|]; [|discriminate].
    injection H as <-. simpl. apply IH. reflexivity.
Qed.

Lemma find_digest_present d ds : forall i,
  ds !! i = Some d -> exists j, find_digest d ds = Some j /\ j <= i.
Proof.
  induction ds as [|x ds IH]; intros i H; [discriminate|]. simpl.
  destruct (bool_decide (x = d)) eqn:Hx; [exists 0; split; [reflexivity|lia]|].
  destruct i as [|i]; simpl in H.
  - apply bool_decide_eq_false_1 in Hx. congruence.
  - destruct (IH i H) as (j & -> & Hj). exists (S j). split; [reflexivity|lia].
Qed.

Lemma find_digest_absent d ds : d ∉ ds -> find_digest d ds = None.
Proof.
  intros Hd. destruct (find_digest d ds) as [j|] eqn:Hj; [|reflexivity].
  apply find_digest_Some in Hj. exfalso. apply Hd.
  eapply list_elem_of_lookup_2, Hj.
Qed.

(** ** The verifier *)

Lemma validateProof_empty target status cfg i :
  validateProof target (Build_proof status cfg i []) = false.
Proof. reflexivity. Qed.

Lemma validateProof_sentinel target cfg :
  validateProof target (sentinel cfg) = false.
Proof. reflexivity. Qed.

(** A generated proof is accepted exactly for the digest its path
    replays to. *)
Lemma validateProof_generated target cfg d p :
  validateProof target (Build_proof true cfg 0 ((Plus, d) :: p)) =
  bool_decide (replay cfg d p = target).
Proof. reflexivity. Qed.

(** The proof for a position inside the tree is accepted for the root
    hash. *)
Lemma auditProof_position_valid T i d :
  Forall (digests_ok (tree_config T)) (subroots T) ->
  leaves T !! i = Some d ->
  exists root p,
    rootHash T = Some root /\
    audit_path (tree_config T) (subroots T) i = Some (d, p) /\
    validateProof root (Build_proof true (tree_config T) 0 ((Plus, d) :: p))
      = true.
Proof.
  intros Hok Hi.
  destruct (audit_path_in_range (tree_config T) _ _ _ Hi) as [p Hp].
  pose proof (audit_path_replay _ _ Hok _ _ _ Hp) as Hroot.
  exists (replay (tree_config T) d p), p.
  split; [exact Hroot|]. split; [exact Hp|].
  rewrite validateProof_generated. apply bool_decide_eq_true_2. reflexivity.
Qed.


(** The proof for a record that some leaf stores the digest of is
    accepted for the root hash. *)
Lemma auditProof_record_valid T r d i root :
  Forall (digests_ok (tree_config T)) (subroots T) ->
  hash (tree_config T) r None = inr d ->
  leaves T !! i = Some d ->
  rootHash T = Some root ->
  validateProof root (auditProof T (ByRecord r)) = true.
Proof.
  intros Hok Hd Hi Hroot.
  destruct (find_digest_present d (leaves T) i Hi) as (j & Hj & _).
  pose proof (find_digest_Some _ _ _ Hj) as Hlj.
  destruct (auditProof_position_valid T j d Hok Hlj)
    as (root' & p & Hroot' & Hp & Hv).
  unfold Tree.auditProof, Tree.resolve. rewrite Hd, Hj, Hp.
  congruence.
Qed.

(** ** Audit proofs of appended records are accepted *)

(** C2. For a tree built from any sequence of records under any
    configuration, and any index [i] with [0 <= i < length], the verifier
    accepts, for the root hash of the tree, the audit proof generated
    from the index [i], the one generated from the [i]-th record and the
    one generated from the encoded bytes of that record. *)
Theorem audit_proof_accepted (cfg : config) (records : list pyarg)
    (T : MerkleTree) (i : Z) :
  build cfg records = inr T ->
  (0 <= i < Z.of_nat (length T))%Z ->
  exists root r b,
    rootHash T = Some root /\
    records !! Z.to_nat i = Some r /\
    to_bytes str_encode cfg r = inr b /\
    validateProof root (auditProof T (ByIndex i)) = true /\
    validateProof root (auditProof T (ByRecord r)) = true /\
    validateProof root (auditProof T (ByRecord (PyBytes b))) = true.
Proof.
  intros Hbuild Hi.
  destruct (build_inv _ _ _ Hbuild) as (Hcfg & Hok & Hrec).
  rewrite <- Hcfg in Hok.
  assert (Hlt : Z.to_nat i < List.length (leaves T))
    by (unfold length in Hi; lia).
  destruct (lookup_lt_is_Some_2 _ _ Hlt) as [d Hd].
  destruct (Forall2_lookup_r _ _ _ _ _ Hrec Hd) as (r & Hr & Hh).
  destruct (hash_returns_encoded _ _ _ Hh) as [b Hb].
  destruct (auditProof_position_valid T _ d Hok Hd)
    as (root & p & Hroot & Hp & Hv).
  exists root, r, b. rewrite <- Hcfg in Hh.
  split; [exact Hroot|]. split; [exact Hr|]. split; [exact Hb|].
  split; [|split].
  - unfold Tree.auditProof, Tree.resolve.
    replace (i <? 0)%Z with false by (symmetry; apply Z.ltb_ge; lia).
    rewrite Hp. exact Hv.
  - eapply auditProof_record_valid; eassumption.
  - eapply auditProof_record_valid; try eassumption.
    rewrite <- Hcfg in Hb. rewrite (hash_encoded _ _ _ Hb). exact Hh.
Qed.

(** ** Audit proofs of anything else are rejected *)

Lemma auditProof_unresolved T arg :
  resolve T arg = None -> auditProof T arg = sentinel (tree_config T).
Proof. intros H. unfold Tree.auditProof. rewrite H. reflexivity. Qed.

Lemma auditProof_out_of_range T arg i :
  resolve T arg = Some i -> length T <= i ->
  auditProof T arg = sentinel (tree_config T).
Proof.
  intros H Hi. unfold Tree.auditProof. rewrite H.
  rewrite audit_path_out_of_range by exact Hi. reflexivity.
Qed.

(** C3. For every tree, [auditProof] called with a negative index, with
    an index that is [length] or more, or with a record that is not found
    (no leaf stores its digest) returns the sentinel proof, it does not
    raise, and the verifier rejects that proof for the root hash as for
    any other target. *)
Theorem audit_proof_rejected (T : MerkleTree) (arg : audit_arg)
    (target : bytes) :
  match arg with
  | ByIndex i => (i < 0)%Z \/ (Z.of_nat (length T) <= i)%Z
  | ByRecord r =>
      forall d, hash (tree_config T) r None = inr d -> d ∉ leaves T
  end ->
  auditProof T arg = sentinel (tree_config T) /\
  validateProof target (auditProof T arg) = false.
Proof.
  intros Harg.
  assert (H : auditProof T arg = sentinel (tree_config T)).
  { destruct arg as [i|r].
    - destruct (Z.ltb_spec i 0) as [Hneg|Hpos].
      + apply auditProof_unresolved. simpl.
        replace (i <? 0)%Z with true by (symmetry; apply Z.ltb_lt; lia).
        reflexivity.
      + apply (auditProof_out_of_range _ _ (Z.to_nat i)).
        * simpl.
          replace (i <? 0)%Z with false by (symmetry; apply Z.ltb_ge; lia).
          reflexivity.
        * destruct Harg as [Hneg|Hge]; lia.
    - apply auditProof_unresolved. simpl.
      destruct (hash (tree_config T) r None) as [e|d] eqn:Hd; [reflexivity|].
      apply find_digest_absent, Harg. reflexivity. }
  split; [exact H|]. rewrite H. apply validateProof_sentinel.
Qed.

(** When the hash algorithm has no collisions, a record whose bytes
    differ from the bytes of every appended record is not found. *)
Lemma never_appended_not_found cfg records T r b :
  (forall x y, algorithm (cfg_hash_type cfg) x = algorithm (cfg_hash_type cfg) y
               -> x = y) ->
  build cfg records = inr T ->
  to_bytes str_encode cfg r = inr b ->
  (forall r', r' ∈ records -> to_bytes str_encode cfg r' <> inr b) ->
  forall d, hash (tree_config T) r None = inr d -> d ∉ leaves T.
Proof.
  intros Hinj Hbuild Hb Hnew d Hd Hin.
  destruct (build_inv _ _ _ Hbuild) as (Hcfg & _ & Hrec). rewrite Hcfg in Hd.
  apply list_elem_of_lookup_1 in Hin as [i Hi].
  destruct (Forall2_lookup_r _ _ _ _ _ Hrec Hi) as (r' & Hr' & Hh').
  apply (Hnew r' (list_elem_of_lookup_2 _ _ _ Hr')).
  unfold Tree.hash in Hd, Hh'. rewrite Hb in Hd. simpl in Hd.
  destruct (to_bytes str_encode cfg r') as [e|b']; [discriminate|].
  simpl in Hh'. injection Hd as <-. injection Hh' as Hh'.
  apply Hinj, app_inv_head in Hh'. congruence.
Qed.

(** A failed [update]: the record is empty, or its text cannot be
    encoded; there is no new state. *)
Lemma update_undecodable T s :
  s <> EmptyString ->
  (exists e, str_encode (cfg_encoding (tree_config T)) s = inl e) ->
  update T (PyStr s) = inl UndecodableRecord.
Proof.
  intros Hs [e He]. unfold Tree.update.
  rewrite (NodesTheory.Leaf_init_digest_undecodable (hash (tree_config T))
             str_encode (cfg_encoding (tree_config T)) (PyStr s)).
  - reflexivity.
  - simpl. destruct s; [contradiction|reflexivity].
  - unfold Tree.hash, to_bytes. rewrite He. reflexivity.
Qed.


End WithAlgorithms.

(** ** The theorems and the scenarios of the spec at a concrete tree *)

Section Instances.

Import Examples.

Local Abbreviation H := (plain_algorithm sha256).

(** Scenario 2: one record "a". *)
Example scenario_one_record :
  exists T, build plain_algorithm ascii_codec cfg [PyStr "a"] = inr T /\
    rootHash plain_algorithm T = Some (H [x00; x61]) /\
    proof_path (auditProof plain_algorithm ascii_codec T (ByIndex 0))
      = [(Plus, H [x00; x61])].
Proof. eexists. repeat split. Qed.

(** Scenario 3: two records "a", "b". *)
Example scenario_two_records :
  exists T, build plain_algorithm ascii_codec cfg [PyStr "a"; PyStr "b"] = inr T /\
    rootHash plain_algorithm T
      = Some (H ([x01] ++ H [x00; x61] ++ [x01] ++ H [x00; x62])) /\
    proof_path (auditProof plain_algorithm ascii_codec T (ByIndex 0))
      = [(Plus, H [x00; x61]); (Plus, H [x00; x62])].
Proof. eexists. repeat split. Qed.

(** Scenario 4: three records "a", "b", "c". *)
Example scenario_three_records :
  build plain_algorithm ascii_codec cfg abc = inr tree_abc /\
  length tree_abc = 3 /\
  rootHash plain_algorithm tree_abc
    = Some (H ([x01] ++ H ([x01] ++ H [x00; x61] ++ [x01] ++ H [x00; x62])
                 ++ [x01] ++ H [x00; x63])) /\
  proof_path (auditProof plain_algorithm ascii_codec tree_abc (ByIndex 2))
    = [(Plus, H [x00; x63]);
       (Minus, H ([x01] ++ H [x00; x61] ++ [x01] ++ H [x00; x62]))].
Proof. repeat split. Qed.

(** The three proofs for leaf 2 of [tree_abc]. *)
Lemma audit_proof_accepted_witness :
  exists root r b,
    rootHash plain_algorithm tree_abc = Some root /\
    abc !! Z.to_nat 2 = Some r /\
    to_bytes ascii_codec cfg r = inr b /\
    validateProof plain_algorithm root
      (auditProof plain_algorithm ascii_codec tree_abc (ByIndex 2)) = true /\
    validateProof plain_algorithm root
      (auditProof plain_algorithm ascii_codec tree_abc (ByRecord r)) = true /\
    validateProof plain_algorithm root
      (auditProof plain_algorithm ascii_codec tree_abc (ByRecord (PyBytes b)))
      = true.
Proof.
  apply (audit_proof_accepted plain_algorithm ascii_codec cfg abc tree_abc 2).
  - reflexivity.
  - change (0 <= 2 < 3)%Z. lia.
Defined.

(** Index -1, index 3 and the record "z" at [tree_abc], against its root
    hash. *)
Lemma audit_proof_rejected_witness :
  let root := default [] (rootHash plain_algorithm tree_abc) in
  validateProof plain_algorithm root
    (auditProof plain_algorithm ascii_codec tree_abc (ByIndex (-1))) = false /\
  validateProof plain_algorithm root
    (auditProof plain_algorithm ascii_codec tree_abc (ByIndex 3)) = false /\
  validateProof plain_algorithm root
    (auditProof plain_algorithm ascii_codec tree_abc (ByRecord (PyStr "z")))
    = false.
Proof.
  intros root. split; [|split].
  - apply (audit_proof_rejected plain_algorithm ascii_codec tree_abc
             (ByIndex (-1)) root).
    left. lia.
  - apply (audit_proof_rejected plain_algorithm ascii_codec tree_abc
             (ByIndex 3) root).
    right. change (3 <= 3)%Z. lia.
  - apply (audit_proof_rejected plain_algorithm ascii_codec tree_abc
             (ByRecord (PyStr "z")) root).
    intros d Hd. vm_compute in Hd. injection Hd as <-.
    intros Hin. apply list_elem_of_In in Hin. vm_compute in Hin.
    repeat (destruct Hin as [Hin|Hin]; [discriminate|]). exact Hin.
Defined.

End Instances.


End TreeTheory.

(** * More properties of nodes.py *)

Module NodesExtraTheory.

Import Nodes.
Import NodesExtra.

(** ** Reading the store through its updates *)

Lemma encoding_update h n f m :
  (forall o, obj_encoding (f o) = obj_encoding o) ->
  encoding (update h n f) m = encoding h m.
Proof.
  intros Hf. unfold encoding. rewrite NodesTheory.update_lookup.
  destruct (decide (n = m)); [|reflexivity].
  destruct (h !! m) as [o|]; simpl; [rewrite Hf|]; reflexivity.
Qed.

Lemma child_update h n f m :
  (forall o, obj_child (f o) = obj_child o) ->
  child (update h n f) m = child h m.
Proof.
  intros Hf. unfold child. rewrite NodesTheory.update_lookup.
  destruct (decide (n = m)); [|reflexivity].
  destruct (h !! m) as [o|]; simpl; [rewrite Hf|]; reflexivity.
Qed.

Lemma with_left_child x o : obj_child (with_left x o) = obj_child o.
Proof. unfold with_left. destruct (obj_shape o); reflexivity. Qed.

Lemma with_right_child x o : obj_child (with_right x o) = obj_child o.
Proof. unfold with_right. destruct (obj_shape o); reflexivity. Qed.

Lemma with_left_encoding x o : obj_encoding (with_left x o) = obj_encoding o.
Proof. unfold with_left. destruct (obj_shape o); reflexivity. Qed.

Lemma with_right_encoding x o : obj_encoding (with_right x o) = obj_encoding o.
Proof. unfold with_right. destruct (obj_shape o); reflexivity. Qed.

Lemma with_left_digest x o : obj_digest (with_left x o) = obj_digest o.
Proof. unfold with_left. destruct (obj_shape o); reflexivity. Qed.

Lemma with_right_digest x o : obj_digest (with_right x o) = obj_digest o.
Proof. unfold with_right. destruct (obj_shape o); reflexivity. Qed.

(** An object below the end of the store is read the same after an
    allocation. *)
Lemma lookup_alloc_old (h : heap) o m :
  m < List.length h -> (h ++ [o]) !! m = h !! m.
Proof. apply lookup_app_l. Qed.

Lemma child_alloc_old h o m :
  m < List.length h -> child (h ++ [o]) m = child h m.
Proof. intros Hm. unfold child. rewrite lookup_alloc_old by exact Hm. reflexivity. Qed.

Lemma left_alloc_old h o m :
  m < List.length h -> left (h ++ [o]) m = left h m.
Proof. intros Hm. unfold left. rewrite lookup_alloc_old by exact Hm. reflexivity. Qed.

Lemma right_alloc_old h o m :
  m < List.length h -> right (h ++ [o]) m = right h m.
Proof. intros Hm. unfold right. rewrite lookup_alloc_old by exact Hm. reflexivity. Qed.

Lemma digest_alloc_old h o m :
  m < List.length h -> digest (h ++ [o]) m = digest h m.
Proof. intros Hm. unfold digest. rewrite lookup_alloc_old by exact Hm. reflexivity. Qed.

Lemma encoding_alloc_old h o m :
  m < List.length h -> encoding (h ++ [o]) m = encoding h m.
Proof. intros Hm. unfold encoding. rewrite lookup_alloc_old by exact Hm. reflexivity. Qed.

Lemma is_leaf_alloc_old h o m :
  m < List.length h -> is_leaf (h ++ [o]) m = is_leaf h m.
Proof. intros Hm. unfold is_leaf. rewrite lookup_alloc_old by exact Hm. reflexivity. Qed.

Lemma child_allocated h n c : child h n = inr c -> n < List.length h.
Proof.
  unfold child. destruct (h !! n) eqn:Hn; [|discriminate].
  intros _. eapply lookup_lt_Some, Hn.
Qed.

Lemma child_new h o :
  child (h ++ [o]) (List.length h) =
  match obj_child o with Some c => inr c | None => inl NoChildException end.
Proof. unfold child. rewrite NodesTheory.alloc_lookup_new. reflexivity. Qed.

Lemma child_beyond (h : heap) (n : handle) :
  List.length h <= n -> child h n = inl NoChildException.
Proof.
  intros Hn. unfold child. destruct (h !! n) eqn:Hl; [|reflexivity].
  apply lookup_lt_Some in Hl. lia.
Qed.

Lemma left_beyond (h : heap) (n : handle) :
  List.length h <= n -> left h n = inl NoParentException.
Proof.
  intros Hn. unfold left. destruct (h !! n) eqn:Hl; [|reflexivity].
  apply lookup_lt_Some in Hl. lia.
Qed.

(** [left] and [right] return together: both on a [Node], neither on a
    [Leaf]. *)
Lemma left_right h n l : left h n = inr l -> exists r, right h n = inr r.
Proof.
  unfold left, right. destruct (h !! n) as [o|]; [|discriminate].
  destruct (obj_shape o); [discriminate|eauto].
Qed.

Lemma right_left h n r : right h n = inr r -> exists l, left h n = inr l.
Proof.
  unfold left, right. destruct (h !! n) as [o|]; [|discriminate].
  destruct (obj_shape o); [discriminate|eauto].
Qed.

Lemma left_not_leaf h n l : left h n = inr l -> is_leaf h n = false.
Proof.
  unfold left, is_leaf, leafy. destruct (h !! n) as [o|]; [|discriminate].
  destruct (obj_shape o); [discriminate|reflexivity].
Qed.

Lemma leaf_no_left h n : is_leaf h n = true -> left h n = inl NoParentException.
Proof.
  unfold left, is_leaf, leafy. destruct (h !! n) as [o|]; [|discriminate].
  destruct (obj_shape o); [reflexivity|discriminate].
Qed.

Lemma leaf_no_right h n : is_leaf h n = true -> right h n = inl NoParentException.
Proof.
  unfold right, is_leaf, leafy. destruct (h !! n) as [o|]; [|discriminate].
  destruct (obj_shape o); [reflexivity|discriminate].
Qed.

Lemma not_leaf_left (h : heap) (n : handle) :
  n < List.length h -> is_leaf h n = false ->
  exists l r, left h n = inr l /\ right h n = inr r.
Proof.
  intros Hn. unfold left, right, is_leaf, leafy.
  destruct (h !! n) as [o|] eqn:Ho.
  - destruct (obj_shape o); [discriminate|eauto].
  - apply lookup_ge_None_1 in Ho. lia.
Qed.

Lemma returns_handle_true r a : returns_handle r a = true <-> r = inr a.
Proof.
  unfold returns_handle. destruct r as [e|x].
  - split; discriminate.
  - rewrite Nat.eqb_eq. split; congruence.
Qed.

Lemma same_true a b : same a b = true <-> a = b.
Proof. apply Nat.eqb_eq. Qed.

Section WithHash.

Variable hash_func : pyarg -> option pyarg -> result bytes.
Variable str_encode : string -> string -> result bytes.

Local Abbreviation Node_init := (Node_init hash_func).
Local Abbreviation Leaf_init := (Leaf_init hash_func str_encode).
Local Abbreviation recalculate_hash := (recalculate_hash hash_func).
Local Abbreviation digest_equation := (digest_equation hash_func).
Local Abbreviation exec := (exec hash_func str_encode).
Local Abbreviation exec_all := (exec_all hash_func str_encode).

(** ** Node.__init__: what it writes and what it leaves *)

(** Every object that existed is read the same after the construction,
    except for the [child] of the two operands. *)
Lemma Node_init_old h enc a b p h' m :
  Node_init h enc a b = inr (p, h') ->
  m < List.length h ->
  digest h' m = digest h m /\ left h' m = left h m /\
  right h' m = right h m /\ encoding h' m = encoding h m /\
  is_leaf h' m = is_leaf h m /\
  child h' m = (if decide (m = a \/ m = b) then inr p else child h m).
Proof.
  intros Hinit Hm.
  apply NodesTheory.Node_init_inv in Hinit
    as (da & db & d & Ha & Hb & _ & -> & ->).
  pose proof (NodesTheory.digest_allocated _ _ _ Ha) as HaL.
  pose proof (NodesTheory.digest_allocated _ _ _ Hb) as HbL.
  set (o := Object (IsNode a b) enc d None).
  assert (HL : List.length (h ++ [o]) = S (List.length h))
    by (rewrite length_app; simpl; lia).
  repeat split.
  - rewrite !NodesTheory.digest_set_child. apply digest_alloc_old, Hm.
  - rewrite !NodesTheory.left_set_child. apply left_alloc_old, Hm.
  - rewrite !NodesTheory.right_set_child. apply right_alloc_old, Hm.
  - unfold set_child. rewrite !encoding_update by reflexivity.
    apply encoding_alloc_old, Hm.
  - unfold set_child. rewrite !NodesTheory.is_leaf_update by reflexivity.
    apply is_leaf_alloc_old, Hm.
  - destruct (decide (m = a \/ m = b)) as [[->| ->]|Hne].
    + destruct (decide (b = a)) as [->|Hba].
      * apply NodesTheory.child_set_child_eq.
        rewrite NodesTheory.set_child_length. lia.
      * rewrite NodesTheory.child_set_child_ne by exact Hba.
        apply NodesTheory.child_set_child_eq. lia.
    + apply NodesTheory.child_set_child_eq.
      rewrite NodesTheory.set_child_length. lia.
    + rewrite !NodesTheory.child_set_child_ne by (intros ->; tauto).
      apply child_alloc_old, Hm.
Qed.

(** The new node. *)
Lemma Node_init_new h enc a b p h' :
  Node_init h enc a b = inr (p, h') ->
  p = List.length h /\ List.length h' = S (List.length h) /\
  a < List.length h /\ b < List.length h /\
  left h' p = inr a /\ right h' p = inr b /\
  child h' p = inl NoChildException /\
  encoding h' p = inr enc /\ is_leaf h' p = false.
Proof.
  intros Hinit.
  apply NodesTheory.Node_init_inv in Hinit
    as (da & db & d & Ha & Hb & _ & -> & ->).
  pose proof (NodesTheory.digest_allocated _ _ _ Ha) as HaL.
  pose proof (NodesTheory.digest_allocated _ _ _ Hb) as HbL.
  set (o := Object (IsNode a b) enc d None).
  split; [reflexivity|]. split.
  { rewrite !NodesTheory.set_child_length, length_app. simpl. lia. }
  split; [exact HaL|]. split; [exact HbL|]. repeat split.
  - rewrite !NodesTheory.left_set_child. unfold left.
    rewrite NodesTheory.alloc_lookup_new. reflexivity.
  - rewrite !NodesTheory.right_set_child. unfold right.
    rewrite NodesTheory.alloc_lookup_new. reflexivity.
  - rewrite !NodesTheory.child_set_child_ne by lia. apply child_new.
  - unfold set_child. rewrite !encoding_update by reflexivity.
    unfold encoding. rewrite NodesTheory.alloc_lookup_new. reflexivity.
  - unfold set_child. rewrite !NodesTheory.is_leaf_update by reflexivity.
    unfold is_leaf. rewrite NodesTheory.alloc_lookup_new. reflexivity.
Qed.

(** X1. [Node.__init__] adds one object to the store and, of the objects
    that were there, writes nothing but the [child] of its two operands:
    every digest, [left], [right], encoding and class is as before, and
    so is the [child] of every other node. *)
Theorem Node_init_frame_old (h : heap) (enc : string) (a b p : handle)
    (h' : heap) :
  Node_init h enc a b = inr (p, h') ->
  List.length h' = S (List.length h) /\
  forall m, m < List.length h ->
    digest h' m = digest h m /\ left h' m = left h m /\
    right h' m = right h m /\ encoding h' m = encoding h m /\
    is_leaf h' m = is_leaf h m /\
    (m <> a -> m <> b -> child h' m = child h m).
Proof.
  intros Hinit.
  split; [apply (Node_init_new _ _ _ _ _ _ Hinit)|].
  intros m Hm.
  destruct (Node_init_old _ _ _ _ _ _ m Hinit Hm)
    as (Hd & Hl & Hr & He & Hleaf & Hc).
  repeat split; try assumption.
  intros Hma Hmb. rewrite Hc.
  destruct (decide (m = a \/ m = b)) as [[?|?]|?]; [contradiction..|reflexivity].
Qed.

(** X2. After [p = Node(.., a, b)], [a] answers true to [is_left_parent],
    [b] to [is_right_parent], both to [is_parent]; [a] is a right parent
    only if it is [b] as well, and [b] a left parent only if it is [a]; the
    new node [p] has no child, so it answers false to all three, one step
    up from [a] is [p] and two steps up there is nothing. *)
Theorem Node_init_roles (h : heap) (enc : string) (a b p : handle)
    (h' : heap) :
  Node_init h enc a b = inr (p, h') ->
  is_left_parent h' a = inr true /\ is_right_parent h' b = inr true /\
  is_parent h' a = inr true /\ is_parent h' b = inr true /\
  is_right_parent h' a = inr (same a b) /\
  is_left_parent h' b = inr (same b a) /\
  is_left_parent h' p = inr false /\ is_right_parent h' p = inr false /\
  is_parent h' p = inr false /\
  descendant 2 h' a 1 = Some (inr p) /\
  descendant 3 h' a 2 = Some (inl NoDescendantException).
Proof.
  intros Hinit.
  destruct (Node_init_new _ _ _ _ _ _ Hinit)
    as (Hp & _ & HaL & HbL & Hl & Hr & Hc & _ & _).
  destruct (Node_init_old _ _ _ _ _ _ a Hinit HaL) as (_ & _ & _ & _ & _ & Hca).
  destruct (Node_init_old _ _ _ _ _ _ b Hinit HbL) as (_ & _ & _ & _ & _ & Hcb).
  rewrite decide_True in Hca by tauto. rewrite decide_True in Hcb by tauto.
  unfold is_left_parent, is_right_parent, is_parent.
  rewrite Hca, Hcb, Hc, Hl, Hr. simpl. unfold ret, same.
  rewrite !Nat.eqb_refl. repeat split.
  - rewrite Hca. reflexivity.
  - rewrite Hca. simpl. rewrite Hc. reflexivity.
Qed.


(** ** Link consistency *)

(** [mutual] spelled out: the child of a node has the node as an operand,
    and the operands of a node have the node as their child. *)
Lemma mutual_spec (h : heap) :
  mutual h = true <->
  (forall n c, child h n = inr c -> left h c = inr n \/ right h c = inr n) /\
  (forall p l r, left h p = inr l -> right h p = inr r ->
                 child h l = inr p /\ child h r = inr p).
Proof.
  unfold mutual. rewrite forallb_forall. split.
  - intros H. split.
    + intros n c Hc.
      assert (Hn : In n (seq 0 (List.length h)))
        by (apply in_seq; pose proof (child_allocated _ _ _ Hc); lia).
      apply H, andb_true_iff in Hn as [Hn _].
      unfold child_answered in Hn. rewrite Hc in Hn.
      apply orb_true_iff in Hn as [Hn|Hn];
        apply returns_handle_true in Hn; auto.
    + intros p l r Hl Hr.
      assert (Hp : In p (seq 0 (List.length h)))
        by (apply in_seq; pose proof (NodesTheory.left_allocated _ _ _ Hl); lia).
      apply H, andb_true_iff in Hp as [_ Hp].
      unfold operands_answer in Hp. rewrite Hl, Hr in Hp.
      apply andb_true_iff in Hp as [H1 H2].
      apply returns_handle_true in H1, H2. auto.
  - intros [HA HB] n _. apply andb_true_iff. split.
    + unfold child_answered. destruct (child h n) as [e|c] eqn:Hc; [reflexivity|].
      apply orb_true_iff.
      destruct (HA n c Hc) as [Hl|Hr]; [left|right];
        apply returns_handle_true; assumption.
    + unfold operands_answer.
      destruct (left h n) as [e|l] eqn:Hl; [reflexivity|].
      destruct (right h n) as [e|r] eqn:Hr; [reflexivity|].
      destruct (HB n l r Hl Hr) as [H1 H2].
      apply andb_true_iff. split; apply returns_handle_true; assumption.
Qed.

Lemma Leaf_init_keeps_mutual h enc record dig l h' :
  mutual h = true ->
  Leaf_init h enc record dig = inr (l, h') ->
  mutual h' = true.
Proof.
  intros Hm Hinit.
  apply NodesTheory.Leaf_init_inv in Hinit as (d & _ & -> & ->).
  apply mutual_spec in Hm as [HA HB]. apply mutual_spec. split.
  - intros n c Hc.
    destruct (Nat.lt_ge_cases n (List.length h)) as [Hn|Hn].
    + rewrite child_alloc_old in Hc by exact Hn.
      destruct (HA n c Hc) as [H|H]; [left|right].
      * apply NodesTheory.left_alloc, H.
      * apply NodesTheory.right_alloc, H.
    + destruct (Nat.eq_dec n (List.length h)) as [->|Hne].
      * rewrite child_new in Hc. discriminate.
      * rewrite child_beyond in Hc; [discriminate|].
        rewrite length_app. simpl. lia.
  - intros p x r Hl Hr.
    destruct (Nat.lt_ge_cases p (List.length h)) as [Hp|Hp].
    + rewrite left_alloc_old in Hl by exact Hp.
      rewrite right_alloc_old in Hr by exact Hp.
      destruct (HB p x r Hl Hr) as [H1 H2].
      pose proof (child_allocated _ _ _ H1). pose proof (child_allocated _ _ _ H2).
      rewrite !child_alloc_old by assumption. auto.
    + destruct (Nat.eq_dec p (List.length h)) as [->|Hne].
      * unfold left in Hl. rewrite NodesTheory.alloc_lookup_new in Hl.
        discriminate.
      * rewrite left_beyond in Hl; [discriminate|].
        rewrite length_app. simpl. lia.
Qed.

Lemma Node_init_keeps_mutual h enc a b p h' :
  mutual h = true ->
  child h a = inl NoChildException ->
  child h b = inl NoChildException ->
  Node_init h enc a b = inr (p, h') ->
  mutual h' = true.
Proof.
  intros Hm Hca Hcb Hinit.
  destruct (Node_init_new _ _ _ _ _ _ Hinit)
    as (Hp & HL & HaL & HbL & Hl & Hr & Hc & _ & _).
  apply mutual_spec in Hm as [HA HB]. apply mutual_spec. split.
  - intros n c Hnc.
    destruct (Nat.lt_ge_cases n (List.length h)) as [Hn|Hn].
    + destruct (Node_init_old _ _ _ _ _ _ n Hinit Hn)
        as (_ & _ & _ & _ & _ & Hcn).
      rewrite Hcn in Hnc.
      destruct (decide (n = a \/ n = b)) as [Hab|Hne].
      * rewrite decide_True in Hnc by exact Hab. injection Hnc as <-.
        destruct Hab as [->| ->]; auto.
      * rewrite decide_False in Hnc by exact Hne.
        destruct (HA n c Hnc) as [H|H].
        -- pose proof (NodesTheory.left_allocated _ _ _ H) as Hcl.
           destruct (Node_init_old _ _ _ _ _ _ c Hinit Hcl)
             as (_ & -> & _). auto.
        -- destruct (right_left _ _ _ H) as [x Hx].
           pose proof (NodesTheory.left_allocated _ _ _ Hx) as Hcl.
           destruct (Node_init_old _ _ _ _ _ _ c Hinit Hcl)
             as (_ & _ & -> & _). auto.
    + destruct (Nat.eq_dec n p) as [->|Hne]; [congruence|].
      rewrite child_beyond in Hnc; [discriminate|]. lia.
  - intros q l r Hql Hqr.
    destruct (Nat.lt_ge_cases q (List.length h)) as [Hq|Hq].
    + destruct (Node_init_old _ _ _ _ _ _ q Hinit Hq)
        as (_ & Hl' & Hr' & _).
      rewrite Hl' in Hql. rewrite Hr' in Hqr.
      destruct (HB q l r Hql Hqr) as [H1 H2].
      pose proof (child_allocated _ _ _ H1) as HlL.
      pose proof (child_allocated _ _ _ H2) as HrL.
      destruct (Node_init_old _ _ _ _ _ _ l Hinit HlL)
        as (_ & _ & _ & _ & _ & ->).
      destruct (Node_init_old _ _ _ _ _ _ r Hinit HrL)
        as (_ & _ & _ & _ & _ & ->).
      rewrite !decide_False; [auto| |]; intros [->| ->]; congruence.
    + destruct (Nat.eq_dec q p) as [->|Hne].
      * rewrite Hl in Hql. rewrite Hr in Hqr.
        injection Hql as <-. injection Hqr as <-.
        destruct (Node_init_old _ _ _ _ _ _ a Hinit HaL)
          as (_ & _ & _ & _ & _ & ->).
        destruct (Node_init_old _ _ _ _ _ _ b Hinit HbL)
          as (_ & _ & _ & _ & _ & ->).
        rewrite !decide_True by tauto. auto.
      * rewrite left_beyond in Hql; [discriminate|]. lia.
Qed.

(** X4. The constructors keep the links of the store consistent: if
    every [child] link is answered by a [left] or [right] link and the
    other way round, the same holds after a leaf is constructed, and after
    a node is constructed over two operands that have no child yet. *)
Theorem constructors_keep_mutual (h : heap) (enc : string) :
  mutual h = true ->
  (forall record dig l h',
     Leaf_init h enc record dig = inr (l, h') -> mutual h' = true) /\
  (forall a b p h',
     child h a = inl NoChildException ->
     child h b = inl NoChildException ->
     Node_init h enc a b = inr (p, h') -> mutual h' = true).
Proof.
  intros Hm. split.
  - intros record dig l h'. apply Leaf_init_keeps_mutual, Hm.
  - intros a b p h'. apply Node_init_keeps_mutual, Hm.
Qed.


(** With consistent links the child of a node is an internal node, so
    the parent tests find its [left] and [right]. *)
Lemma parent_tests_return (h : heap) (n : handle) :
  mutual h = true ->
  exists bl br,
    is_left_parent h n = inr bl /\ is_right_parent h n = inr br /\
    is_parent h n = inr (bl || br).
Proof.
  intros Hm. apply mutual_spec in Hm as [HA _].
  unfold is_left_parent, is_right_parent, is_parent.
  destruct (child h n) as [e|c] eqn:Hc.
  - apply NodesTheory.child_raises in Hc as ->. exists false, false. auto.
  - destruct (HA n c Hc) as [Hl|Hr].
    + destruct (left_right _ _ _ Hl) as [r Hr]. rewrite Hl, Hr. simpl.
      exists (same n n), (same n r).
      split; [reflexivity|]. split; [reflexivity|].
      unfold same. rewrite Nat.eqb_refl. reflexivity.
    + destruct (right_left _ _ _ Hr) as [l Hl]. rewrite Hl, Hr. simpl.
      exists (same n l), (same n n).
      split; [reflexivity|]. split; [reflexivity|].
      unfold same. rewrite Nat.eqb_refl, orb_true_r. reflexivity.
Qed.

(** X5. In a store with consistent links, [is_left_parent] and
    [is_right_parent] never raise, and [is_parent] is true exactly when
    one of them is: the node is the [left] or the [right] of some other
    node, as the docstring of [is_parent] says. *)
Theorem mutual_parent_tests (h : heap) (n : handle) :
  mutual h = true ->
  exists bl br,
    is_left_parent h n = inr bl /\ is_right_parent h n = inr br /\
    is_parent h n = inr (bl || br).
Proof. apply parent_tests_return. Qed.

(** X18. A node answers true to both [is_left_parent] and
    [is_right_parent] only when its child has it as both operands. *)
Theorem both_parents_same_operand (h : heap) (n : handle) :
  is_left_parent h n = inr true ->
  is_right_parent h n = inr true ->
  exists c, child h n = inr c /\ left h c = inr n /\ right h c = inr n.
Proof.
  unfold is_left_parent, is_right_parent.
  destruct (child h n) as [e|c] eqn:Hc.
  - apply NodesTheory.child_raises in Hc as ->. discriminate.
  - destruct (left h c) as [e|l] eqn:Hlc; [discriminate|].
    destruct (right h c) as [e|r] eqn:Hrc; [discriminate|].
    simpl. unfold ret. intros [= Hl] [= Hr].
    apply same_true in Hl, Hr. subst l r. exists c.
    split; [reflexivity|]. split; assumption.
Qed.


(** ** set_child, set_left, set_right *)

(** X6. [set_child] on an existing node: [child] returns the node that
    was set, whatever child there was before, and the node answers true
    to [is_parent]; nothing else in the store is written, in particular
    not the [left] or [right] of the new child. *)
Theorem set_child_effect (h : heap) (n c : handle) :
  n < List.length h ->
  child (set_child h n c) n = inr c /\
  is_parent (set_child h n c) n = inr true /\
  (forall c', set_child (set_child h n c') n c = set_child h n c) /\
  List.length (set_child h n c) = List.length h /\
  forall m,
    (m <> n -> child (set_child h n c) m = child h m) /\
    left (set_child h n c) m = left h m /\
    right (set_child h n c) m = right h m /\
    digest (set_child h n c) m = digest h m /\
    encoding (set_child h n c) m = encoding h m /\
    is_leaf (set_child h n c) m = is_leaf h m.
Proof.
  intros Hn.
  pose proof (NodesTheory.child_set_child_eq h n c Hn) as Hc.
  split; [exact Hc|]. split; [unfold is_parent; rewrite Hc; reflexivity|].
  split.
  { intros c'. unfold set_child.
    destruct (h !! n) as [o|] eqn:Ho.
    - unfold update at 1.
      rewrite (NodesTheory.update_lookup_eq _ _ _ _ Ho).
      unfold update. rewrite Ho. apply (list_insert_insert_eq h n).
    - apply lookup_ge_None_1 in Ho. lia. }
  split; [apply NodesTheory.set_child_length|].
  intros m. repeat split.
  - intros Hne. apply NodesTheory.child_set_child_ne. congruence.
  - apply NodesTheory.left_set_child.
  - apply NodesTheory.right_set_child.
  - apply NodesTheory.digest_set_child.
  - apply encoding_update. reflexivity.
  - apply NodesTheory.is_leaf_update. reflexivity.
Qed.

Lemma set_left_frame h n x h1 :
  set_left h n x = inr h1 ->
  forall m,
    child h1 m = child h m /\ encoding h1 m = encoding h m /\
    is_leaf h1 m = is_leaf h m /\
    (m <> n -> left h1 m = left h m /\ right h1 m = right h m).
Proof.
  intros Hset m. apply NodesTheory.set_left_inv in Hset as (-> & _).
  repeat split.
  - apply child_update, with_left_child.
  - apply encoding_update, with_left_encoding.
  - apply NodesTheory.is_leaf_update_leafy, NodesTheory.with_left_leafy.
  - unfold left. rewrite NodesTheory.update_lookup_ne by congruence. reflexivity.
  - unfold right. rewrite NodesTheory.update_lookup_ne by congruence. reflexivity.
Qed.

Lemma set_right_frame h n x h1 :
  set_right h n x = inr h1 ->
  forall m,
    child h1 m = child h m /\ encoding h1 m = encoding h m /\
    is_leaf h1 m = is_leaf h m /\
    (m <> n -> left h1 m = left h m /\ right h1 m = right h m).
Proof.
  intros Hset m. apply NodesTheory.set_right_inv in Hset as (-> & _).
  repeat split.
  - apply child_update, with_right_child.
  - apply encoding_update, with_right_encoding.
  - apply NodesTheory.is_leaf_update_leafy, NodesTheory.with_right_leafy.
  - unfold left. rewrite NodesTheory.update_lookup_ne by congruence. reflexivity.
  - unfold right. rewrite NodesTheory.update_lookup_ne by congruence. reflexivity.
Qed.

Lemma set_left_returns h n x l :
  left h n = inr l -> exists h1, set_left h n x = inr h1.
Proof.
  unfold left, set_left. destruct (h !! n) as [o|]; [|discriminate].
  destruct (obj_shape o); [discriminate|eauto].
Qed.

Lemma set_right_returns h n x l :
  left h n = inr l -> exists h1, set_right h n x = inr h1.
Proof.
  unfold left, set_right. destruct (h !! n) as [o|]; [|discriminate].
  destruct (obj_shape o); [discriminate|eauto].
Qed.

(** X7. On an internal node, [set_left] and [set_right] return, and
    afterwards [left] (or [right]) is the node that was set while the
    other operand link is as before.  They write nothing else: the
    digest of the node is not recalculated, and the [child] of the new
    operand is not pointed at the node. *)
Theorem set_left_right_effect (h : heap) (n x l : handle) :
  left h n = inr l ->
  (exists h1,
     set_left h n x = inr h1 /\
     left h1 n = inr x /\ right h1 n = right h n /\
     forall m,
       digest h1 m = digest h m /\ child h1 m = child h m /\
       encoding h1 m = encoding h m /\ is_leaf h1 m = is_leaf h m /\
       (m <> n -> left h1 m = left h m /\ right h1 m = right h m)) /\
  (exists h1,
     set_right h n x = inr h1 /\
     right h1 n = inr x /\ left h1 n = inr l /\
     forall m,
       digest h1 m = digest h m /\ child h1 m = child h m /\
       encoding h1 m = encoding h m /\ is_leaf h1 m = is_leaf h m /\
       (m <> n -> left h1 m = left h m /\ right h1 m = right h m)).
Proof.
  intros Hl. split.
  - destruct (set_left_returns h n x l Hl) as [h1 Hset]. exists h1.
    split; [exact Hset|].
    destruct (NodesTheory.set_left_inv _ _ _ _ Hset) as (_ & H1 & H2 & H3).
    split; [exact H1|]. split; [exact H2|]. intros m.
    destruct (set_left_frame _ _ _ _ Hset m) as (Hc & He & Hf & Hlr).
    repeat split; try assumption; try apply H3; apply Hlr; assumption.
  - destruct (set_right_returns h n x l Hl) as [h1 Hset]. exists h1.
    split; [exact Hset|].
    destruct (NodesTheory.set_right_inv _ _ _ _ Hset) as (_ & H1 & H2 & H3).
    split; [exact H1|]. split; [rewrite H2; exact Hl|]. intros m.
    destruct (set_right_frame _ _ _ _ Hset m) as (Hc & He & Hf & Hlr).
    repeat split; try assumption; try apply H3; apply Hlr; assumption.
Qed.


(** ** recalculate_hash *)

Lemma recalculate_hash_inv_full h n h1 :
  recalculate_hash h n = inr h1 ->
  exists l r dl dr d,
    left h n = inr l /\ right h n = inr r /\
    digest h l = inr dl /\ digest h r = inr dr /\
    hash_func (PyBytes dl) (Some (PyBytes dr)) = inr d /\
    h1 = update h n (with_digest d).
Proof.
  unfold Nodes.recalculate_hash.
  destruct (h !! n) as [o|]; [|discriminate].
  destruct (obj_shape o) as [|l0 r0]; [discriminate|].
  destruct (left h n) as [|l]; [discriminate|]. simpl.
  destruct (digest h l) as [|dl] eqn:Hdl; [discriminate|]. simpl.
  destruct (right h n) as [|r]; [discriminate|]. simpl.
  destruct (digest h r) as [|dr] eqn:Hdr; [discriminate|]. simpl.
  destruct (hash_func (PyBytes dl) (Some (PyBytes dr))) as [|d] eqn:Hd;
    [discriminate|].
  simpl. intros [= <-]. exists l, r, dl, dr, d. repeat split; assumption.
Qed.

Lemma update_same_digest (h : heap) (n : handle) d :
  digest h n = inr d -> update h n (with_digest d) = h.
Proof.
  unfold digest, update. destruct (h !! n) as [o|] eqn:Ho; [|discriminate].
  intros [= <-]. apply (list_insert_id h n). destruct o. exact Ho.
Qed.

(** Where the equation holds, the recalculation changes nothing. *)
Lemma recalculate_hash_fixed h n :
  digest_equation h n = true -> recalculate_hash h n = inr h.
Proof.
  intros Heq. apply NodesTheory.digest_equation_elim in Heq
    as (l & r & dl & dr & d & Hl & Hr & Hdl & Hdr & Hd & Hh).
  rewrite (NodesTheory.recalculate_hash_returns hash_func h n l r dl dr d)
    by assumption.
  f_equal. apply update_same_digest, Hd.
Qed.

(** X8. [recalculate_hash] is a no-op on a node whose digest already is
    the hash of its operands' digests, and calling it a second time
    changes nothing (the node not being its own operand). *)
Theorem recalculate_hash_idempotent (h : heap) (n : handle) :
  (digest_equation h n = true -> recalculate_hash h n = inr h) /\
  (forall h1,
     recalculate_hash h n = inr h1 ->
     left h n <> inr n -> right h n <> inr n ->
     recalculate_hash h1 n = inr h1).
Proof.
  split; [apply recalculate_hash_fixed|].
  intros h1 Hre Hln Hrn.
  apply recalculate_hash_inv_full in Hre
    as (l & r & dl & dr & d & Hl & Hr & Hdl & Hdr & Hd & ->).
  destruct (NodesTheory.recalculate_hash_restores hash_func h n l r dl dr d
              Hl Hr Hdl Hdr Hd) as (h' & Hre & _ & _ & _ & Heq).
  rewrite (NodesTheory.recalculate_hash_returns hash_func h n l r dl dr d)
    in Hre by assumption.
  injection Hre as <-. apply recalculate_hash_fixed, Heq; congruence.
Qed.

(** X9. [recalculate_hash] writes the digest of its node and nothing
    else: no link, encoding or class changes, no object is added, and
    every other node keeps its digest, the child of the node included,
    whose own digest is therefore not brought up to date. *)
Theorem recalculate_hash_frame (h : heap) (n : handle) (h1 : heap) :
  recalculate_hash h n = inr h1 ->
  List.length h1 = List.length h /\
  forall m,
    left h1 m = left h m /\ right h1 m = right h m /\
    child h1 m = child h m /\ encoding h1 m = encoding h m /\
    is_leaf h1 m = is_leaf h m /\
    (m <> n -> digest h1 m = digest h m).
Proof.
  intros Hre. apply NodesTheory.recalculate_hash_inv in Hre as (d & -> & _).
  split; [apply NodesTheory.update_length|]. intros m. repeat split.
  - apply NodesTheory.left_update. reflexivity.
  - apply NodesTheory.right_update. reflexivity.
  - apply child_update. reflexivity.
  - apply encoding_update. reflexivity.
  - apply NodesTheory.is_leaf_update. reflexivity.
  - intros Hne. apply NodesTheory.digest_with_digest_ne. congruence.
Qed.



(** ** Leaf.__init__ *)

(** X11. [Leaf.__init__] raises [LeafConstructionError] when neither of
    its two tests passes, that is unless the digest is [None] and the
    record is not empty, or the record is [None] and the digest is not
    empty ([hash_func] and the codec not raising that error themselves). *)
Theorem Leaf_init_construction_error_iff (h : heap) (enc : string)
    (record dig : option pyarg) :
  (forall a, hash_func a None <> inl LeafConstructionError) ->
  (forall s, str_encode enc s <> inl LeafConstructionError) ->
  Leaf_init h enc record dig = inl LeafConstructionError <->
  ~ ((dig = None /\ exists r, record = Some r /\ truthy r = true) \/
     (record = None /\ exists x, dig = Some x /\ truthy x = true)).
Proof.
  intros Hh He.
  rewrite (NodesTheory.Leaf_init_construction_error hash_func str_encode
             h enc record dig Hh He).
  destruct dig as [x|], record as [r|]; simpl.
  - split; [|reflexivity]. intros _ [[H _]|[H _]]; discriminate.
  - rewrite orb_false_r || idtac. destruct (truthy x) eqn:Hx; simpl.
    + split; [discriminate|]. intros H. exfalso. apply H. right.
      split; [reflexivity|]. exists x. auto.
    + split; [|reflexivity]. intros _ [[H _]|[_ (y & [= <-] & Hy)]];
        congruence.
  - rewrite orb_false_r. destruct (truthy r) eqn:Hr; simpl.
    + split; [discriminate|]. intros H. exfalso. apply H. left.
      split; [reflexivity|]. exists r. auto.
    + split; [|reflexivity]. intros _ [[_ (y & [= <-] & Hy)]|[H _]];
        congruence.
  - split; [|reflexivity].
    intros _ [[_ (y & H & _)]|[_ (y & H & _)]]; discriminate.
Qed.

(** X12. A leaf that was constructed is a new object, a [Leaf] with the
    given encoding and no child: it answers false to the three parent
    tests, has no [left] and no [right], and has no descendant of any
    non-zero degree; the objects that existed are untouched. *)
Theorem Leaf_init_new_root (h : heap) (enc : string)
    (record dig : option pyarg) (l : handle) (h' : heap) :
  Leaf_init h enc record dig = inr (l, h') ->
  h !! l = None /\ List.length h' = S (List.length h) /\
  is_leaf h' l = true /\ encoding h' l = inr enc /\
  child h' l = inl NoChildException /\
  is_parent h' l = inr false /\
  is_left_parent h' l = inr false /\ is_right_parent h' l = inr false /\
  left h' l = inl NoParentException /\ right h' l = inl NoParentException /\
  (forall fuel k, k <> 0%Z ->
     descendant (S fuel) h' l k = Some (inl NoDescendantException)) /\
  (forall m, m < List.length h -> h' !! m = h !! m).
Proof.
  intros Hinit. apply NodesTheory.Leaf_init_inv in Hinit as (d & _ & -> & ->).
  set (o := Object IsLeaf enc d None).
  assert (Hc : child (h ++ [o]) (List.length h) = inl NoChildException)
    by apply child_new.
  split; [apply lookup_ge_None_2; lia|].
  split; [rewrite length_app; simpl; lia|].
  unfold is_parent, is_left_parent, is_right_parent. rewrite Hc.
  unfold is_leaf, encoding, left, right.
  rewrite NodesTheory.alloc_lookup_new. simpl.
  repeat split.
  - intros fuel k Hk. simpl.
    replace (k =? 0)%Z with false by (symmetry; apply Z.eqb_neq; exact Hk).
    rewrite Hc. reflexivity.
  - intros m. apply lookup_app_l.
Qed.


(** ** What no operation does *)

Lemma exec_keeps_objects h o m :
  m < List.length h ->
  List.length h <= List.length (exec h o) /\
  encoding (exec h o) m = encoding h m /\
  is_leaf (exec h o) m = is_leaf h m.
Proof.
  intros Hm.
  destruct o as [enc record dig|enc a b|n c|n x|n x|n]; simpl.
  - destruct (Leaf_init h enc record dig) as [e|[p h']] eqn:Hinit; [auto|].
    apply NodesTheory.Leaf_init_inv in Hinit as (d & _ & _ & ->).
    rewrite length_app. simpl. split; [lia|].
    split; [apply encoding_alloc_old, Hm|apply is_leaf_alloc_old, Hm].
  - destruct (Node_init h enc a b) as [e|[p h']] eqn:Hinit; [auto|].
    destruct (Node_init_new _ _ _ _ _ _ Hinit) as (_ & HL & _).
    destruct (Node_init_old _ _ _ _ _ _ m Hinit Hm) as (_ & _ & _ & He & Hf & _).
    split; [lia|]. auto.
  - rewrite NodesTheory.set_child_length. split; [lia|].
    unfold set_child. split;
      [apply encoding_update|apply NodesTheory.is_leaf_update]; reflexivity.
  - destruct (set_left h n x) as [e|h'] eqn:Hset; [auto|].
    destruct (set_left_frame _ _ _ _ Hset m) as (_ & He & Hf & _).
    apply NodesTheory.set_left_inv in Hset as (-> & _).
    rewrite NodesTheory.update_length. auto.
  - destruct (set_right h n x) as [e|h'] eqn:Hset; [auto|].
    destruct (set_right_frame _ _ _ _ Hset m) as (_ & He & Hf & _).
    apply NodesTheory.set_right_inv in Hset as (-> & _).
    rewrite NodesTheory.update_length. auto.
  - destruct (recalculate_hash h n) as [e|h'] eqn:Hre; [auto|].
    apply NodesTheory.recalculate_hash_inv in Hre as (d & -> & _).
    rewrite NodesTheory.update_length. split; [lia|].
    split; [apply encoding_update|apply NodesTheory.is_leaf_update]; reflexivity.
Qed.

(** X14. Whatever constructors and methods run, no object leaves the
    store, and every object keeps its class ([Leaf] or [Node]) and its
    encoding. *)
Theorem exec_all_keeps_objects (os : list op) (h : heap) (m : handle) :
  m < List.length h ->
  List.length h <= List.length (exec_all h os) /\
  encoding (exec_all h os) m = encoding h m /\
  is_leaf (exec_all h os) m = is_leaf h m.
Proof.
  revert h. induction os as [|o os IH]; intros h Hm; [auto|].
  destruct (exec_keeps_objects h o m Hm) as (HL & He & Hf).
  destruct (IH (exec h o) ltac:(lia)) as (HL' & He' & Hf').
  simpl. fold (exec_all (exec h o) os).
  split; [lia|]. split; congruence.
Qed.


(** ** descendant *)

Lemma follow_add h k : forall j n,
  follow h n (j + k) =
  match follow h n j with
  | Some m => follow h m k
  | None => None
  end.
Proof.
  induction k as [|k IH]; intros j n.
  - rewrite Nat.add_0_r. destruct (follow h n j); reflexivity.
  - replace (j + S k) with (S (j + k)) by lia.
    cbn [follow]. rewrite IH. destruct (follow h n j); reflexivity.
Qed.

(** X15. Degrees add up: when [descendant(j)] of [n] is [m], then
    [descendant(j + k)] of [n] is [descendant(k)] of [m], for
    non-negative [j] and [k]; and when [descendant(j)] raises
    [NoDescendantException], so does [descendant(j + k)]. *)
Theorem descendant_add (h : heap) (n : handle) (j k : Z)
    (fj fk f : nat) :
  (0 <= j)%Z -> (0 <= k)%Z ->
  Z.to_nat j < fj -> Z.to_nat k < fk -> Z.to_nat (j + k) < f ->
  (forall m, descendant fj h n j = Some (inr m) ->
             descendant f h n (j + k) = descendant fk h m k) /\
  (descendant fj h n j = Some (inl NoDescendantException) ->
   descendant f h n (j + k) = Some (inl NoDescendantException)).
Proof.
  intros Hj Hk Hfj Hfk Hf.
  pose proof (NodesTheory.descendant_nat h (Z.to_nat j) n fj Hfj) as Dj.
  pose proof (NodesTheory.descendant_nat h (Z.to_nat (j + k)) n f Hf) as Djk.
  rewrite Z2Nat.id in Dj by exact Hj. rewrite Z2Nat.id in Djk by lia.
  rewrite Z2Nat.inj_add, follow_add in Djk by assumption.
  rewrite Djk, Dj. split.
  - intros m Hm. destruct (follow h n (Z.to_nat j)) as [m'|]; [|discriminate].
    injection Hm as ->.
    pose proof (NodesTheory.descendant_nat h (Z.to_nat k) m fk Hfk) as Dk.
    rewrite Z2Nat.id in Dk by exact Hk. rewrite Dk. reflexivity.
  - intros H. destruct (follow h n (Z.to_nat j)); [discriminate|reflexivity].
Qed.

(** X16. When the [child] links from a node never end (they run into a
    cycle), [descendant] with a negative degree returns nothing and
    raises nothing, however many nested calls it is given. *)
Theorem descendant_negative_diverges (h : heap) (n : handle) (k : Z)
    (fuel : nat) :
  (k < 0)%Z ->
  (forall j, follow h n j <> None) ->
  descendant fuel h n k = None.
Proof.
  revert n k.
  induction fuel as [|fuel IH]; intros n k Hk Hchain; [reflexivity|].
  cbn [descendant].
  replace (k =? 0)%Z with false by (symmetry; apply Z.eqb_neq; lia).
  pose proof (Hchain 1) as H1. rewrite NodesTheory.follow_first in H1.
  unfold child_step in H1. destruct (child h n) as [e|c] eqn:Hc.
  - contradiction.
  - apply IH; [lia|]. intros j Hj. apply (Hchain (S j)).
    rewrite NodesTheory.follow_first. unfold child_step. rewrite Hc. exact Hj.
Qed.


(** ** __Node.__str__ *)

Section Printing.

Variable E : Type.
Variable bytes_decode : string -> bytes -> E + string.

Local Abbreviation __str__ := (__str__ E bytes_decode).

Lemma count_nl_app a b : count_nl (a ++ b) = count_nl a + count_nl b.
Proof.
  induction a as [|c a IH]; [reflexivity|].
  change (count_nl (String c (a ++ b)) = count_nl (String c a) + count_nl b).
  cbn [count_nl]. rewrite IH. lia.
Qed.

Lemma count_nl_prefixes :
  count_nl " " = 0 /\ count_nl VERTICAL_BAR = 0 /\
  count_nl T_BRACKET = 0 /\ count_nl L_BRACKET_LONG = 0 /\
  count_nl L_BRACKET_SHORT = 0 /\ count_nl newline = 1.
Proof. repeat split. Qed.

Lemma count_nl_spaces k : count_nl (str_mul k " ") = 0.
Proof.
  unfold str_mul. induction (Z.to_nat k) as [|j IH]; [reflexivity|].
  cbn [repeat fold_right]. rewrite count_nl_app, IH. reflexivity.
Qed.

Lemma count_nl_bar_step indent ignore output i :
  count_nl (bar_step indent ignore output i) = count_nl output.
Proof.
  destruct count_nl_prefixes as (Hs & Hv & _).
  unfold bar_step. rewrite !count_nl_app, !count_nl_spaces.
  destruct (negb (py_in i ignore));
    rewrite ?count_nl_app, ?count_nl_spaces, ?Hs, ?Hv; lia.
Qed.

Lemma count_nl_bars indent ignore l : forall output,
  count_nl (fold_left (bar_step indent ignore) l output) = count_nl output.
Proof.
  induction l as [|i l IH]; intros output; [reflexivity|].
  cbn [fold_left]. rewrite IH. apply count_nl_bar_step.
Qed.

Ltac count_lines :=
  repeat first
    [ rewrite count_nl_app | rewrite count_nl_bars
    | rewrite count_nl_spaces ].

(** A successful count means that the node exists. *)
Lemma count_nodes_allocated fuel h n s :
  count_nodes fuel h n = Some s -> exists o, h !! n = Some o.
Proof.
  destruct fuel as [|fuel]; [discriminate|]. cbn [count_nodes].
  unfold left, is_leaf. destruct (h !! n) as [o|]; [eauto|discriminate].
Qed.

Lemma count_nodes_cases fuel h n s :
  count_nodes (S fuel) h n = Some s ->
  (is_leaf h n = true /\ s = 1) \/
  (exists l r a b,
     is_leaf h n = false /\ left h n = inr l /\ right h n = inr r /\
     count_nodes fuel h l = Some a /\ count_nodes fuel h r = Some b /\
     s = S (a + b)).
Proof.
  cbn [count_nodes].
  destruct (left h n) as [e|l] eqn:Hl.
  - destruct (is_leaf h n); [|discriminate]. intros [= <-]. auto.
  - destruct (right h n) as [e|r] eqn:Hr.
    + destruct (left_right _ _ _ Hl) as [r Hr']. congruence.
    + destruct (count_nodes fuel h l) as [a|] eqn:Ha; [|discriminate].
      destruct (count_nodes fuel h r) as [b|] eqn:Hb; [|discriminate].
      intros [= <-]. right. exists l, r, a, b.
      repeat split; trivial. eapply left_not_leaf, Hl.
Qed.

(** X17. [__str__] prints one line per node: for a finite subtree of a
    store with consistent links whose digests decode to text without
    line ends, the call returns, and the text has as many line ends as
    the subtree has nodes, plus the one in front when [level] is 0. *)
Theorem str_one_line_per_node (fuel : nat) (h : heap) (n : handle)
    (s : nat) (enc : option string) (level indent : Z) (ignore : list Z) :
  mutual h = true ->
  (forall m d e, digest h m = inr d ->
     exists text, bytes_decode e d = inr text /\ count_nl text = 0) ->
  count_nodes fuel h n = Some s ->
  (0 <= level)%Z ->
  exists out,
    __str__ fuel h n enc level indent ignore = Some (inr out) /\
    count_nl out = s + (if (level =? 0)%Z then 1 else 0).
Proof.
  revert h n s enc level indent ignore.
  induction fuel as [|fuel IH];
    intros h n s enc level indent ignore Hm Hdec Hcount Hlevel;
    [discriminate|].
  destruct (parent_tests_return h n Hm) as (bl & br & Hbl & Hbr & _).
  destruct (count_nodes_allocated _ _ _ _ Hcount) as [o Ho].
  assert (Henc : exists e, effective_encoding h n enc = inr e).
  { unfold effective_encoding, encoding. rewrite Ho.
    destruct enc as [e|]; [destruct (String.eqb e EmptyString)|]; eauto. }
  destruct Henc as [e Henc].
  assert (Hd : digest h n = inr (obj_digest o))
    by (unfold digest; rewrite Ho; reflexivity).
  destruct (Hdec n _ e Hd) as (text & Htext & Hnl).
  destruct count_nl_prefixes as (Hs & Hv & Ht & Hll & Hls & Hn).
  assert (Hnext : (level + 1 =? 0)%Z = false) by (apply Z.eqb_neq; lia).
  cbn [NodesExtra.__str__]. rewrite Hbl, Hbr, Henc, Hd, Htext.
  destruct (count_nodes_cases _ _ _ _ Hcount)
    as [[Hleaf ->]|(l & r & a & b & Hleaf & Hl & Hr & Ha & Hb & ->)];
    rewrite Hleaf.
  - destruct (level =? 0)%Z, bl, br; cbv beta iota;
      (eexists; split; [reflexivity|]);
      count_lines; rewrite ?Hs, ?Ht, ?Hll, ?Hls, ?Hn, ?Hnl; lia.
  - rewrite Hl, Hr.
    destruct (level =? 0)%Z, bl, br; cbv beta iota;
      match goal with
      | |- context [NodesExtra.__str__ E bytes_decode fuel h l (Some e)
                      (level + 1)%Z indent ?ig] =>
          destruct (IH h l a (Some e) (level + 1)%Z indent ig Hm Hdec Ha
                      ltac:(lia)) as (sl & Hsl & Hsln);
          destruct (IH h r b (Some e) (level + 1)%Z indent ig Hm Hdec Hb
                      ltac:(lia)) as (sr & Hsr & Hsrn)
      end;
      rewrite Hnext in Hsln, Hsrn; rewrite Hsl, Hsr;
      (eexists; split; [reflexivity|]);
      count_lines;
      rewrite ?Hs, ?Ht, ?Hll, ?Hls, ?Hn, ?Hnl, ?Hsln, ?Hsrn; lia.
Qed.

End Printing.


End WithHash.


(** ** The theorems at concrete stores *)

Section Instances.

Import Examples.
Import ExtraExamples.

Lemma Node_init_frame_old_witness :
  List.length small_tree = S (List.length three_leaves) /\
  forall m, m < List.length three_leaves ->
    digest small_tree m = digest three_leaves m /\
    left small_tree m = left three_leaves m /\
    right small_tree m = right three_leaves m /\
    encoding small_tree m = encoding three_leaves m /\
    is_leaf small_tree m = is_leaf three_leaves m /\
    (m <> 0 -> m <> 1 -> child small_tree m = child three_leaves m).
Proof.
  apply (Node_init_frame_old hash_func ascii_codec three_leaves "utf-8"
           0 1 3 small_tree).
  reflexivity.
Defined.

Lemma Node_init_roles_witness :
  is_left_parent small_tree 0 = inr true /\
  is_right_parent small_tree 1 = inr true /\
  is_parent small_tree 0 = inr true /\ is_parent small_tree 1 = inr true /\
  is_right_parent small_tree 0 = inr (same 0 1) /\
  is_left_parent small_tree 1 = inr (same 1 0) /\
  is_left_parent small_tree 3 = inr false /\
  is_right_parent small_tree 3 = inr false /\
  is_parent small_tree 3 = inr false /\
  descendant 2 small_tree 0 1 = Some (inr 3) /\
  descendant 3 small_tree 0 2 = Some (inl NoDescendantException).
Proof.
  apply (Node_init_roles hash_func ascii_codec three_leaves "utf-8"
           0 1 3 small_tree).
  reflexivity.
Defined.


Lemma constructors_keep_mutual_witness :
  mutual small_tree = true /\
  mutual (exec hash_func ascii_codec small_tree
            (NewLeaf "utf-8" (Some (PyStr "d")) None)) = true.
Proof.
  split.
  - destruct (constructors_keep_mutual hash_func ascii_codec three_leaves
                "utf-8" eq_refl) as [_ H].
    apply (H 0 1 3 small_tree); reflexivity.
  - destruct (constructors_keep_mutual hash_func ascii_codec small_tree
                "utf-8" eq_refl) as [H _].
    eapply (H (Some (PyStr "d")) None 4). reflexivity.
Defined.

Lemma mutual_parent_tests_witness :
  exists bl br,
    is_left_parent lettered 3 = inr bl /\
    is_right_parent lettered 3 = inr br /\
    is_parent lettered 3 = inr (bl || br).
Proof. apply (mutual_parent_tests lettered 3). reflexivity. Defined.

(** In [twin], leaf 0 is the left and the right operand of node 3. *)
Lemma both_parents_same_operand_witness :
  exists c, child twin 0 = inr c /\ left twin c = inr 0 /\ right twin c = inr 0.
Proof. apply (both_parents_same_operand twin 0); reflexivity. Defined.

Lemma set_child_effect_witness :
  child (set_child small_tree 0 2) 0 = inr 2 /\
  is_parent (set_child small_tree 0 2) 0 = inr true /\
  (forall c', set_child (set_child small_tree 0 c') 0 2
              = set_child small_tree 0 2) /\
  List.length (set_child small_tree 0 2) = List.length small_tree /\
  forall m,
    (m <> 0 -> child (set_child small_tree 0 2) m = child small_tree m) /\
    left (set_child small_tree 0 2) m = left small_tree m /\
    right (set_child small_tree 0 2) m = right small_tree m /\
    digest (set_child small_tree 0 2) m = digest small_tree m /\
    encoding (set_child small_tree 0 2) m = encoding small_tree m /\
    is_leaf (set_child small_tree 0 2) m = is_leaf small_tree m.
Proof.
  apply (set_child_effect small_tree 0 2). change (0 < 4). lia.
Defined.

Lemma set_left_right_effect_witness :
  (exists h1,
     set_left small_tree 3 2 = inr h1 /\
     left h1 3 = inr 2 /\ right h1 3 = right small_tree 3 /\
     digest h1 3 = digest small_tree 3 /\ child h1 2 = child small_tree 2) /\
  (exists h1,
     set_right small_tree 3 2 = inr h1 /\
     right h1 3 = inr 2 /\ left h1 3 = inr 0 /\
     digest h1 3 = digest small_tree 3 /\ child h1 2 = child small_tree 2).
Proof.
  destruct (set_left_right_effect small_tree 3 2 0 eq_refl)
    as [(h1 & H1 & H2 & H3 & H4) (h2 & G1 & G2 & G3 & G4)].
  split.
  - exists h1. destruct (H4 3) as (Hd & _). destruct (H4 2) as (_ & Hc & _).
    repeat split; assumption.
  - exists h2. destruct (G4 3) as (Hd & _). destruct (G4 2) as (_ & Hc & _).
    repeat split; assumption.
Defined.

Lemma recalculate_hash_idempotent_witness :
  recalculate_hash hash_func small_tree 3 = inr small_tree /\
  recalculate_hash hash_func recalculated 3 = inr recalculated.
Proof.
  split.
  - destruct (recalculate_hash_idempotent hash_func small_tree 3) as [H _].
    apply H. reflexivity.
  - destruct (recalculate_hash_idempotent hash_func repointed_left 3)
      as [_ H].
    apply H; [reflexivity|discriminate|discriminate].
Defined.

Lemma recalculate_hash_frame_witness :
  List.length recalculated = List.length repointed_left /\
  forall m,
    left recalculated m = left repointed_left m /\
    right recalculated m = right repointed_left m /\
    child recalculated m = child repointed_left m /\
    encoding recalculated m = encoding repointed_left m /\
    is_leaf recalculated m = is_leaf repointed_left m /\
    (m <> 3 -> digest recalculated m = digest repointed_left m).
Proof.
  apply (recalculate_hash_frame hash_func repointed_left 3 recalculated).
  reflexivity.
Defined.


(** The hash function and the codec of the examples raise nothing but
    their own errors. *)
Lemma hash_func_errors a e :
  hash_func a None = inl e -> e = UndecodableArgumentError.
Proof.
  unfold hash_func, Tree.hash, Tree.to_bytes.
  destruct a as [s|b]; simpl; [|discriminate].
  destruct (ascii_codec "utf-8" s); simpl; [|discriminate].
  unfold raise. congruence.
Qed.

Lemma ascii_codec_errors enc s e :
  ascii_codec enc s = inl e -> e = UnicodeEncodeError.
Proof.
  unfold ascii_codec.
  destruct (forallb _ _); [discriminate|congruence].
Qed.

Lemma Leaf_init_construction_error_iff_witness :
  Leaf_init hash_func ascii_codec [] "utf-8" (Some (PyStr "a")) (Some (PyStr "b"))
    = inl LeafConstructionError.
Proof.
  apply (Leaf_init_construction_error_iff hash_func ascii_codec [] "utf-8"
           (Some (PyStr "a")) (Some (PyStr "b"))).
  - intros a H. apply hash_func_errors in H. discriminate.
  - intros s H. apply ascii_codec_errors in H. discriminate.
  - intros [[H _]|[H _]]; discriminate.
Defined.

Lemma Leaf_init_new_root_witness :
  small_tree !! 4 = None /\
  List.length (small_tree ++ [Object IsLeaf "utf-8" [x00; x64] None])
    = S (List.length small_tree) /\
  is_leaf (small_tree ++ [Object IsLeaf "utf-8" [x00; x64] None]) 4 = true /\
  encoding (small_tree ++ [Object IsLeaf "utf-8" [x00; x64] None]) 4
    = inr "utf-8" /\
  child (small_tree ++ [Object IsLeaf "utf-8" [x00; x64] None]) 4
    = inl NoChildException.
Proof.
  destruct (Leaf_init_new_root hash_func ascii_codec small_tree "utf-8"
              (Some (PyStr "d")) None 4
              (small_tree ++ [Object IsLeaf "utf-8" [x00; x64] None])
              eq_refl) as (H1 & H2 & H3 & H4 & H5 & _).
  repeat split; assumption.
Defined.


Lemma exec_all_keeps_objects_witness :
  List.length three_leaves <= List.length recalculated /\
  encoding recalculated 0 = encoding three_leaves 0 /\
  is_leaf recalculated 0 = is_leaf three_leaves 0.
Proof.
  apply (exec_all_keeps_objects hash_func ascii_codec
           [NewNode "utf-8" 0 1; SetLeft 3 2; RecalculateHash 3]
           three_leaves 0).
  change (0 < 3). lia.
Defined.

Lemma descendant_add_witness :
  descendant 3 lettered 0 (1 + 1) = descendant 2 lettered 3 1.
Proof.
  destruct (descendant_add lettered 0 1 1 2 2 3) as [H _];
    [lia|lia|simpl; lia|simpl; lia|simpl; lia|].
  apply H. reflexivity.
Defined.

(** In [looped], leaf 0 is its own child: the chain never ends. *)
Lemma looped_follow j : follow looped 0 j = Some 0.
Proof. induction j as [|j IH]; [reflexivity|]. simpl. rewrite IH. reflexivity. Qed.

Lemma descendant_negative_diverges_witness :
  descendant 1000 looped 0 (-1) = None.
Proof.
  apply (descendant_negative_diverges looped 0 (-1) 1000); [lia|].
  intros j. rewrite looped_follow. discriminate.
Defined.

(** Every digest of [lettered] is a letter. *)
Lemma lettered_decodes m d e :
  digest lettered m = inr d ->
  exists text, ascii_decode e d = inr text /\ count_nl text = 0.
Proof.
  do 5 (destruct m as [|m]; [intros [= <-]; eexists; split; reflexivity|]).
  discriminate.
Qed.

(** The text printed for [lettered] from its root. *)
Example str_lettered :
  __str__ codec_error ascii_decode 3 lettered 4 None 0 3 [] = Some (inr "
 └─e
     ├──d
     │    ├──a
     │    └──b
     └──c
").
Proof. reflexivity. Qed.

Lemma str_one_line_per_node_witness :
  exists out,
    __str__ codec_error ascii_decode 3 lettered 4 None 0 3 [] = Some (inr out) /\
    count_nl out = 5 + 1.
Proof.
  apply (str_one_line_per_node codec_error ascii_decode 3 lettered 4 5 None
           0 3 []).
  - reflexivity.
  - apply lettered_decodes.
  - reflexivity.
  - lia.
Defined.

End Instances.


End NodesExtraTheory.
